(** * sync_one: a one-way directory mirror with an ignore-rule matcher

    Shallow embedding of [src/gitignore.hpp] (class [GitIgnore]) and of
    [src/sync.cpp] ([isIgnored], [syncFile], [collectRemovals], [mirror],
    [main]), followed by what can be proved about them.

    How the program is modelled:
    - [std::string] is [string] (a sequence of bytes), [size_t] is a [Z]
      reduced modulo [2^64], [std::string::npos] is [2^64 - 1].
    - [fs::path] below a root is the list of its components; [path::string()]
      joins them with the POSIX separator.
    - The destination tree is a finite map from relative paths to nodes; the
      source tree is the sequence of entries its recursive iterator yields
      and is not changed by a run (the two roots are taken to be disjoint,
      existing directories).  Only regular files and directories occur.
    - Code that can throw runs in a small state-and-exception monad; the state
      (destination tree and the lines written so far) survives a throw, so
      what happened before an abort can be observed.
    - Creating or removing an entry changes the modification time of the
      directory that holds it.
    - How moving the bytes inside [fs::copy_file] goes is decided by the
      environment ([io]): a failure to open either file leaves the
      destination as it was, a failure after that leaves it with the bytes
      that arrived.  The texts of the library's exceptions are the
      environment's too ([what]). *)

From Stdlib Require Import ZArith String Ascii List Bool Lia.
From stdpp Require Import base option list sorting gmap fin_maps.

Open Scope Z_scope.

(** ** [std::string] primitives used by the sources *)

Module StdString.

Definition size_t_modulus : Z := 2 ^ 64.

(** [std::string::npos], the largest [size_t]. *)
Definition npos : Z := size_t_modulus - 1.

(** Unsigned 64-bit addition. *)
Definition size_t_add (a b : Z) : Z := (a + b) mod size_t_modulus.

Definition size (s : string) : Z := Z.of_nat (String.length s).

(** Does character [c] occur in the set [chars]? *)
Fixpoint is_in (c : ascii) (chars : string) : bool :=
  match chars with
  | EmptyString => false
  | String d chars' => Ascii.eqb c d || is_in c chars'
  end.

(** Scan of [s] from index [i], remembering in [acc] the last index whose
    character is outside [chars]. *)
Fixpoint last_not_of_from (s chars : string) (i acc : Z) : Z :=
  match s with
  | EmptyString => acc
  | String c s' =>
      last_not_of_from s' chars (i + 1) (if is_in c chars then acc else i)
  end.

(** [s.find_last_not_of(chars)]: index of the last character of [s] that is
    not in [chars], [npos] when there is none. *)
Definition find_last_not_of (s chars : string) : Z :=
  last_not_of_from s chars 0 npos.

(** [s.erase(pos)]: drops everything from index [pos] on.  The library
    throws [out_of_range] when [pos > size()]; the only caller passes an
    index that is at most the size. *)
Definition erase (s : string) (pos : Z) : string :=
  String.substring 0 (Z.to_nat pos) s.

(** [s.substr(1)] on a non-empty string. *)
Definition substr1 (s : string) : string :=
  match s with
  | EmptyString => EmptyString
  | String _ s' => s'
  end.

(** [s[0]], read only after [s.empty()] was found false. *)
Definition front (s : string) : option ascii :=
  match s with
  | EmptyString => None
  | String c _ => Some c
  end.

(** [s.find(pat)]: first index at which [pat] occurs in [s], else [npos]. *)
Fixpoint find_from (s pat : string) (i : Z) : Z :=
  if String.prefix pat s then i
  else match s with
       | EmptyString => npos
       | String _ s' => find_from s' pat (i + 1)
       end.

Definition find (s pat : string) : Z := find_from s pat 0.

(** [std::replace(s.begin(), s.end(), a, b)]. *)
Fixpoint replace (s : string) (a b : ascii) : string :=
  match s with
  | EmptyString => EmptyString
  | String c s' => String (if Ascii.eqb c a then b else c) (replace s' a b)
  end.

End StdString.

(** ** [class GitIgnore] (gitignore.hpp) *)

Module GitIgnore.
Import StdString.

(** An element of [rules_]: the pair built by [emplace_back(neg, r)], so
    [fst] is the [neg] flag and [snd] the pattern. *)
Definition rule : Type := bool * string.

(** The literal [" \r\n\t"]. *)
Definition trailing_blanks : string :=
  String " " (String "013" (String "010" (String "009" EmptyString))).

(** [void addRule(const std::string& rule)], on the vector [rules_]. *)
Definition addRule (line : string) (rules_ : list rule) : list rule :=
  let r := erase line (size_t_add (find_last_not_of line trailing_blanks) 1) in
  match front r with
  | None => rules_
  | Some c =>
      if Ascii.eqb c "#" then rules_
      else if Ascii.eqb c "!" then rules_ ++ [(true, substr1 r)]
      else rules_ ++ [(false, r)]
  end.

(** [explicit GitIgnore(const std::vector<std::string>& rules)]. *)
Definition make (lines : list string) : list rule :=
  fold_left (fun rules_ line => addRule line rules_) lines [].

(** [bool match(path, pattern)]. *)
Definition match_ (path pattern : string) : bool :=
  negb (Z.eqb (find path pattern) npos).

(** One turn of the loop of [isIgnored]: both branches test [rule.first]. *)
Definition isIgnored_step (p : string) (ignored : bool) (r : rule) : bool :=
  if fst r && match_ p (snd r) then true
  else if negb (fst r) && match_ p (snd r) then false
  else ignored.

(** [bool isIgnored(const std::string& path) const]. *)
Definition isIgnored (rules_ : list rule) (path : string) : bool :=
  let p := replace path "092" "/" in
  fold_left (isIgnored_step p) rules_ false.

End GitIgnore.

(** ** The file system seen through [std::filesystem] *)

Module Fs.

(** A path below a root directory, as its sequence of components; the empty
    list is the root itself. *)
Abbreviation path := (list string) (only parsing).

(** What a path names: a regular file with its size and modification time,
    or a directory with its modification time. *)
Inductive node : Type :=
| File (size mtime : Z)
| Dir (mtime : Z).

#[global] Instance node_eq_dec : EqDecision node.
Proof. solve_decision. Defined.

Definition last_write (n : node) : Z :=
  match n with
  | File _ t => t
  | Dir t => t
  end.

Definition touch (t : Z) (n : node) : node :=
  match n with
  | File s _ => File s t
  | Dir _ => Dir t
  end.

(** Creating or removing an entry changes the modification time of the
    directory that holds it.  The program never reads the time of the root;
    it is recorded only in a tree that has an entry for the empty path. *)
Definition touch_dir (t : Z) (p : path) (m : gmap path node) : gmap path node :=
  match m !! p with
  | Some (Dir _) => <[p := Dir t]> m
  | _ => m
  end.

(** [rel.string()] with the POSIX separator. *)
Definition path_string (p : path) : string := String.concat "/" p.

(** [(root / rel).string()]. *)
Definition abs_string (root : string) (p : path) : string :=
  match p with
  | [] => root
  | _ => (root ++ "/" ++ path_string p)%string
  end.

(** [p.parent_path()]. *)
Definition parent_path (p : path) : path := removelast p.

(** [k] names an entry directly inside directory [p]. *)
Definition child_of (p k : path) : Prop := k <> [] /\ parent_path k = p.

#[global] Instance child_of_dec p k : Decision (child_of p k).
Proof. unfold child_of. apply _. Defined.

(** A directory is empty when no key of the tree is one of its children. *)
Definition empty_dir (m : gmap path node) (p : path) : Prop :=
  map_Forall (fun k _ => ~ child_of p k) m.

#[global] Instance empty_dir_dec m p : Decision (empty_dir m p).
Proof. unfold empty_dir. apply _. Defined.

End Fs.

(** ** Lines written by the program *)

Inductive line : Type :=
| COPY (src dst : string)      (** [[COPY] src -> dst] on [std::cout] *)
| DEL_D (p : string)           (** [[DEL D] p] on [std::cout] *)
| DEL_F (p : string)           (** [[DEL F] p] on [std::cout] *)
| ERROR (what : string)        (** [[ERROR] what] on [std::cerr] *)
| USAGE (argv0 : string)       (** [Usage: argv0 <src> <dst> [gitignore]] on [std::cerr] *)
| FINISHED.                    (** [Sync finished.] on [std::cout] *)

Inductive stream : Type := Cout | Cerr.

Definition stream_of (l : line) : stream :=
  match l with
  | ERROR _ | USAGE _ => Cerr
  | _ => Cout
  end.

(** ** State and exceptions *)

Module Run.
Import Fs.

(** What the program can change: the tree below the destination root and
    the lines written so far (oldest first). *)
Record state : Type := State {
  dst_tree : gmap path node;
  out : list line
}.

(** A call either returns or throws [std::exception] with its [what()]. *)
Inductive outcome (A : Type) : Type :=
| Ret (a : A)
| Throw (what : string).
Arguments Ret {A} a.
Arguments Throw {A} what.

Definition M (A : Type) : Type := state -> outcome A * state.

Definition ret {A} (a : A) : M A := fun st => (Ret a, st).

Definition throw {A} (what : string) : M A := fun st => (Throw what, st).

Definition bind {A B} (m : M A) (k : A -> M B) : M B :=
  fun st =>
    match m st with
    | (Ret a, st') => k a st'
    | (Throw w, st') => (Throw w, st')
    end.

(** [try { body } catch (const std::exception& e) { handler(e.what()) }]. *)
Definition try_catch {A} (body : M A) (handler : string -> M A) : M A :=
  fun st =>
    match body st with
    | (Ret a, st') => (Ret a, st')
    | (Throw w, st') => handler w st'
    end.

Definition get_tree : M (gmap path node) := fun st => (Ret (dst_tree st), st).

Definition put_tree (m : gmap path node) : M unit :=
  fun st => (Ret tt, State m (out st)).

Definition print (l : line) : M unit :=
  fun st => (Ret tt, State (dst_tree st) (out st ++ [l])).

(** A range-based [for] whose body may throw. *)
Fixpoint for_each {A} (body : A -> M unit) (l : list A) : M unit :=
  match l with
  | [] => ret tt
  | x :: l' => bind (body x) (fun _ => for_each body l')
  end.

End Run.

Declare Scope run_scope.
Delimit Scope run_scope with run.
Notation "x <- m ;; k" := (Run.bind m (fun x => k))
  (at level 100, m at next level, right associativity) : run_scope.
Notation "m ;;; k" := (Run.bind m (fun _ => k))
  (at level 100, right associativity) : run_scope.

(** ** sync.cpp *)

Module Sync.
Import Fs Run.
Local Open Scope run_scope.

(** The library calls of the program that can fail, by the reason. *)
Inductive failure : Type :=
| copy_file_open             (** the source or the destination cannot be opened *)
| copy_file_write            (** moving the bytes breaks off *)
| copy_file_not_regular      (** the destination is a directory *)
| last_write_time_missing    (** no such file or directory *)
| file_size_directory        (** the path is a directory *)
| file_size_missing          (** no such file or directory *)
| create_directories_blocked (** a regular file stands where a directory is needed *)
| remove_not_empty.          (** the directory still has entries *)

(** How moving the bytes of one file to its destination goes. *)
Inductive copy_result : Type :=
| copies                     (** all bytes arrive *)
| fails_at_open              (** source or destination cannot be opened *)
| fails_after (written : Z). (** the destination is open; [written] bytes arrive *)

(** What a run reads but never changes.  The source root is assumed to be
    an existing directory disjoint from the destination, so that the
    entries its iterator yields stay valid during the run. *)
Record env : Type := Env {
  g_ignore : option (list GitIgnore.rule);  (** [static GitIgnore* g_ignore] *)
  src_root : string;
  dst_root : string;
  (** [fs::recursive_directory_iterator(src)], in the order it yields *)
  src_entries : list (path * node);
  (** how copying the bytes to a destination path goes *)
  io : path -> copy_result;
  (** the time stamp a freshly written file or directory receives *)
  clock : Z;
  (** [what()] of the exception a failing call throws: the text is the
      library's and differs between implementations *)
  what : failure -> path -> string
}.

(** *** Library calls on the source tree *)

(** [fs::exists(srcRoot / rel)]. *)
Definition src_exists (e : env) (rel : path) : bool :=
  match rel with
  | [] => true
  | _ => bool_decide (rel ∈ (src_entries e).*1)
  end.

(** *** Library calls on the destination tree *)

Definition dst_exists (rel : path) : M bool :=
  m <- get_tree ;; ret (bool_decide (is_Some (m !! rel))).

Definition is_directory (rel : path) : M bool :=
  m <- get_tree ;;
  ret (match m !! rel with Some (Dir _) => true | _ => false end).

(** [fs::last_write_time(p)] throws when [p] does not exist. *)
Definition last_write_time (e : env) (rel : path) : M Z :=
  m <- get_tree ;;
  match m !! rel with
  | Some n => ret (last_write n)
  | None => throw (what e last_write_time_missing rel)
  end.

(** [fs::last_write_time(p, t)] throws when [p] does not exist. *)
Definition set_last_write_time (e : env) (rel : path) (t : Z) : M unit :=
  m <- get_tree ;;
  match m !! rel with
  | Some n => put_tree (<[rel := touch t n]> m)
  | None => throw (what e last_write_time_missing rel)
  end.

(** [fs::file_size(p)] throws unless [p] is a regular file. *)
Definition file_size (e : env) (rel : path) : M Z :=
  m <- get_tree ;;
  match m !! rel with
  | Some (File s _) => ret s
  | Some (Dir _) => throw (what e file_size_directory rel)
  | None => throw (what e file_size_missing rel)
  end.

(** [fs::create_directories(p)], walking down from the root: [done] is the
    part already known to be a directory, [todo] what is left.  A directory
    that is created changes the time of the directory it is created in.
    The call looks for a regular file on the way before it creates
    anything, so a failing call leaves the tree as it was. *)
Fixpoint mkdirs (e : env) (done todo : path) (m : gmap path node)
  : option (gmap path node) :=
  match todo with
  | [] => Some m
  | c :: todo' =>
      let q := done ++ [c] in
      match m !! q with
      | Some (Dir _) => mkdirs e q todo' m
      | Some (File _ _) => None
      | None =>
          mkdirs e q todo' (<[q := Dir (clock e)]> (touch_dir (clock e) done m))
      end
  end.

Definition create_directories (e : env) (rel : path) : M unit :=
  m <- get_tree ;;
  match mkdirs e [] rel m with
  | Some m' => put_tree m'
  | None => throw (what e create_directories_blocked rel)
  end.

(** The tree once [rel] is gone: the entry is removed and the directory
    that held it has a new time. *)
Definition removed (e : env) (rel : path) (m : gmap path node) : gmap path node :=
  touch_dir (clock e) (parent_path rel) (delete rel m).

(** [fs::remove(p)]: nothing to do when [p] is absent, an error when [p] is
    a directory that still has entries. *)
Definition remove (e : env) (rel : path) : M bool :=
  m <- get_tree ;;
  match m !! rel with
  | None => ret false
  | Some (Dir _) =>
      if bool_decide (empty_dir m rel)
      then put_tree (removed e rel m) ;;; ret true
      else throw (what e remove_not_empty rel)
  | Some (File _ _) => put_tree (removed e rel m) ;;; ret true
  end.

(** The tree once the destination [rel] has been opened for writing and
    [size] bytes have arrived: an absent file is created, which changes the
    time of its directory; an existing one is cut to length zero first. *)
Definition opened (e : env) (rel : path) (size : Z) (m : gmap path node)
  : gmap path node :=
  match m !! rel with
  | None => <[rel := File size (clock e)]> (touch_dir (clock e) (parent_path rel) m)
  | Some _ => <[rel := File size (clock e)]> m
  end.

(** The part of [copy_file] that opens both files and moves the bytes.  A
    failure to open leaves the tree alone; a failure while the bytes are
    moved leaves the destination with what had arrived. *)
Definition move_bytes (e : env) (rel : path) (ssize : Z) : M bool :=
  m <- get_tree ;;
  match io e rel with
  | fails_at_open => throw (what e copy_file_open rel)
  | fails_after written =>
      put_tree (opened e rel written m) ;;; throw (what e copy_file_write rel)
  | copies => put_tree (opened e rel ssize m) ;;; ret true
  end.

(** [fs::copy_file(src, dst, overwrite_existing | update_existing)] for a
    regular source file of size [ssize] and time [smtime].  Both flags
    belong to the same option group; the library tests [update_existing]
    first, so an existing destination is replaced only when it is older
    than the source, and the call then returns [false] without an error.
    A destination that is a directory is an error.  The files are opened
    only after these checks. *)
Definition copy_file (e : env) (rel : path) (ssize smtime : Z) : M bool :=
  m <- get_tree ;;
  match m !! rel with
  | Some (Dir _) => throw (what e copy_file_not_regular rel)
  | Some (File _ dmtime) =>
      if smtime <=? dmtime then ret false else move_bytes e rel ssize
  | None => move_bytes e rel ssize
  end.

(** *** The functions of sync.cpp *)

(** [bool isIgnored(const fs::path& p)]. *)
Definition isIgnored (e : env) (p : string) : bool :=
  match g_ignore e with
  | None => false
  | Some rules_ => GitIgnore.isIgnored rules_ p
  end.

(** [void syncFile(const fs::path& src, const fs::path& dst)]. *)
Definition syncFile (e : env) (rel : path) (ssize smtime : Z) : M unit :=
  try_catch
    (copy_file e rel ssize smtime ;;;
     print (COPY (abs_string (src_root e) rel) (abs_string (dst_root e) rel)))
    (fun what => print (ERROR what)).

(** The body of the loop of [collectRemovals] on one destination entry:
    does the entry go on the list? *)
Definition to_remove (e : env) (rel : path) : bool :=
  if isIgnored e (path_string rel) then false
  else negb (src_exists e rel).

(** [void collectRemovals(dstRoot, srcRoot, toRemove)]; the order in which
    the iterator yields the destination entries is the order of the map's
    enumeration, and is forgotten by the sort that follows. *)
Definition collectRemovals (e : env) : M (list path) :=
  m <- get_tree ;;
  ret (filter (fun rel => to_remove e rel = true) (map_to_list m).*1).

(** The comparator of the sort: [a.string() > b.string()]. *)
Definition path_gt (e : env) (a b : path) : bool :=
  String.ltb (abs_string (dst_root e) b) (abs_string (dst_root e) a).

(** [std::sort(first, last, comp)]. *)
Fixpoint sort_insert {A} (comp : A -> A -> bool) (x : A) (l : list A) : list A :=
  match l with
  | [] => [x]
  | y :: l' => if comp y x then y :: sort_insert comp x l' else x :: l
  end.

Definition std_sort {A} (comp : A -> A -> bool) (l : list A) : list A :=
  foldr (sort_insert comp) [] l.

(** The body of the deletion loop of [mirror]. *)
Definition remove_entry (e : env) (rel : path) : M unit :=
  d <- is_directory rel ;;
  remove e rel ;;;
  print (if d then DEL_D (abs_string (dst_root e) rel)
         else DEL_F (abs_string (dst_root e) rel)).

(** The staleness test of [mirror], with the short-circuit [||]. *)
Definition needs_copy (e : env) (rel : path) (ssize smtime : Z) : M bool :=
  ex <- dst_exists rel ;;
  if negb ex then ret true
  else
    dmtime <- last_write_time e rel ;;
    if negb (smtime =? dmtime)%Z then ret true
    else
      dsize <- file_size e rel ;;
      ret (negb (ssize =? dsize)%Z).

(** The body of the copy loop of [mirror] on one source entry. *)
Definition copy_entry (e : env) (ent : path * node) : M unit :=
  let '(rel, n) := ent in
  if isIgnored e (path_string rel) then ret tt
  else
    match n with
    | Dir _ => create_directories e rel
    | File ssize smtime =>
        stale <- needs_copy e rel ssize smtime ;;
        if stale then
          create_directories e (parent_path rel) ;;;
          syncFile e rel ssize smtime ;;;
          set_last_write_time e rel smtime
        else ret tt
    end.

(** [void mirror(const fs::path& src, const fs::path& dst)].  The
    destination root is the (implicit) root of the tree, so the first
    [create_directories] has nothing to create. *)
Definition mirror (e : env) : M unit :=
  create_directories e [] ;;;
  toRemove <- collectRemovals e ;;
  for_each (remove_entry e) (std_sort (path_gt e) toRemove) ;;;
  for_each (copy_entry e) (src_entries e).

(** *** [int main(int argc, char* argv[])] *)

(** How the process ends: [return code] from [main], or [std::terminate]
    after an exception nobody caught. *)
Inductive exit_status : Type :=
| Exit (code : Z)
| Terminate (what : string).

(** The machine the program runs on. *)
Record machine : Type := Machine {
  (** the lines [std::getline] reads from a file, [None] when
      [fs::exists] is false for that name *)
  file_lines : string -> option (list string);
  (** what the recursive iterator yields below a source directory *)
  tree_below : string -> list (path * node);
  (** the tree below a destination directory before the run *)
  dst_below : string -> gmap path node;
  (** how copying the bytes to a destination path goes *)
  copying : path -> copy_result;
  time_now : Z;
  (** the texts of the library's exceptions *)
  what_text : failure -> path -> string
}.

(** The rule lines [main] loads: only with exactly four arguments and an
    existing rules file. *)
Definition load_rules (mc : machine) (argv : list string) : list string :=
  if (Z.of_nat (length argv) =? 4)%Z then
    match file_lines mc (nth 3 argv EmptyString) with
    | Some lines => lines
    | None => []
    end
  else [].

Definition env_of (mc : machine) (argv : list string) : env :=
  let src := nth 1 argv EmptyString in
  let dst := nth 2 argv EmptyString in
  Env (Some (GitIgnore.make (load_rules mc argv))) src dst
      (tree_below mc src) (copying mc) (time_now mc) (what_text mc).

Definition initial (mc : machine) (argv : list string) : state :=
  State (dst_below mc (nth 2 argv EmptyString)) [].

Definition main (mc : machine) (argv : list string) : exit_status * state :=
  if (Z.of_nat (length argv) <? 3)%Z then
    (Exit 1, State (dst_below mc (nth 2 argv EmptyString))
                   [USAGE (nth 0 argv EmptyString)])
  else
    match (mirror (env_of mc argv) ;;; print FINISHED) (initial mc argv) with
    | (Ret _, st) => (Exit 0, st)
    | (Throw what, st) => (Terminate what, st)
    end.

End Sync.

(** ** Concrete trees *)

Module Examples.
Import Fs Run Sync.

Definition never_fails : path -> copy_result := fun _ => copies.

(** The file at [p] cannot be opened. *)
Definition fails_on (p : path) : path -> copy_result :=
  fun q => if bool_decide (q = p) then fails_at_open else copies.


(** One library's texts, without the paths. *)
Definition plain_what (f : failure) (_ : path) : string :=
  match f with
  | copy_file_open => "copy_file: Permission denied"
  | copy_file_write => "copy_file: No space left on device"
  | copy_file_not_regular => "copy_file: Is a directory"
  | last_write_time_missing => "last_write_time: No such file or directory"
  | file_size_directory => "file_size: Is a directory"
  | file_size_missing => "file_size: No such file or directory"
  | create_directories_blocked => "create_directories: Not a directory"
  | remove_not_empty => "remove: Directory not empty"
  end.

(** One rule line without [!]; a source file and a destination-only file
    whose names both contain the pattern. *)
Definition plain_rule_env : env :=
  Env (Some (GitIgnore.make ["tmp"%string])) "src" "dst"
      [(["tmpfile.txt"%string], File 3 7)] never_fails 100 plain_what.

Definition plain_rule_state : state :=
  State {[ ["tmp_old.txt"%string] := File 1 5 ]} [].

(** A destination file older than its source. *)
Definition newer_source_env : env :=
  Env None "src" "dst" [(["a.txt"%string], File 1 9)] never_fails 100 plain_what.

Definition newer_source_state : state :=
  State {[ ["a.txt"%string] := File 1 3 ]} [].

(** The destination-only subtree [a/b/file.txt], no rules. *)
Definition subtree_env : env :=
  Env (Some (GitIgnore.make [])) "src" "dst" [] never_fails 100 plain_what.

Definition subtree_state : state :=
  State (list_to_map [ (["a"%string], Dir 1);
                       (["a"; "b"]%string, Dir 1);
                       (["a"; "b"; "file.txt"]%string, File 1 1) ]) [].

(** A destination-only directory holding an entry the matcher excludes. *)
Definition kept_child_env : env :=
  Env (Some (GitIgnore.make ["!keep"%string])) "src" "dst" [] never_fails 100 plain_what.

Definition kept_child_state : state :=
  State (list_to_map [ (["a"%string], Dir 1);
                       (["a"; "keep.txt"]%string, File 1 1) ]) [].

(** Two new source files, the first of which cannot be read. *)
Definition unreadable_first_env : env :=
  Env None "src" "dst"
      [(["a.txt"%string], File 3 7); (["b.txt"%string], File 4 8)]
      (fails_on ["a.txt"%string]) 100 plain_what.

Definition empty_state : state := State ∅ [].

(** A stale destination file (same size, older) that cannot be written. *)
Definition unwritable_env : env :=
  Env None "src" "dst" [(["a.txt"%string], File 4 9)]
      (fails_on ["a.txt"%string]) 100 plain_what.

Definition unwritable_state : state :=
  State {[ ["a.txt"%string] := File 4 3 ]} [].

(** A destination file that is newer than its source and of another size. *)
Definition newer_destination_env : env :=
  Env None "src" "dst" [(["a.txt"%string], File 1 3)] never_fails 100 plain_what.

Definition newer_destination_state : state :=
  State {[ ["a.txt"%string] := File 2 5 ]} [].

(** The state a second run starts from: the tree the first run left, and a
    fresh output. *)
Definition rerun (st : state) : state := State (dst_tree st) [].

(** A machine with empty directories and no files. *)
Definition bare_machine : machine :=
  Machine (fun _ => None) (fun _ => []) (fun _ => ∅) never_fails 100 plain_what.

(** A source with a file, a directory and a file inside it; a destination
    with an older copy of the first file and a file the source lacks. *)
Definition scenario_env : env :=
  Env (Some (GitIgnore.make [])) "src" "dst"
      [ (["a.txt"%string], File 1 9);
        (["sub"%string], Dir 4);
        (["sub"; "b.txt"]%string, File 2 6) ] never_fails 100 plain_what.

Definition scenario_state : state :=
  State (list_to_map [ (["a.txt"%string], File 1 3);
                       (["old.txt"%string], File 5 2) ]) [].



(** A machine whose rules file [rules.txt] holds one negated line. *)
Definition rules_machine : machine :=
  Machine (fun name => if String.eqb name "rules.txt" then Some ["!keep"%string] else None)
          (fun _ => []) (fun _ => ∅) never_fails 100 plain_what.

(** A destination directory that the source has too, holding one file the
    source has and one it lacks. *)
Definition held_env : env :=
  Env None "src" "dst"
      [ (["d"%string], Dir 4); (["d"; "kept.txt"]%string, File 2 2) ]
      never_fails 100 plain_what.

Definition held_state : state :=
  State (list_to_map [ (["d"%string], Dir 5);
                       (["d"; "kept.txt"]%string, File 2 2);
                       (["d"; "old.txt"]%string, File 1 1) ]) [].


(** The deletion loop of [mirror] on its own: the sorted list of
    [collectRemovals], walked by the loop body. *)
Definition deletion_loop (e : env) (st : state) : outcome unit * state :=
  match collectRemovals e st with
  | (Ret toRemove, st1) =>
      for_each (remove_entry e) (std_sort (path_gt e) toRemove) st1
  | (Throw w, st1) => (Throw w, st1)
  end.

End Examples.

(** * Properties *)

(** ** Strings *)

Module StdStringFacts.
Import StdString.

(** Every character of [s] is in [chars]. *)
Fixpoint all_in (s chars : string) : bool :=
  match s with
  | EmptyString => true
  | String c s' => is_in c chars && all_in s' chars
  end.

Fixpoint last_char (s : string) : option ascii :=
  match s with
  | EmptyString => None
  | String c EmptyString => Some c
  | String _ s' => last_char s'
  end.

(** [s] is empty or its last character is outside [chars]. *)
Definition ends_outside (s chars : string) : bool :=
  match last_char s with
  | None => true
  | Some c => negb (is_in c chars)
  end.

Lemma append_empty t : (EmptyString ++ t)%string = t.
Proof. reflexivity. Qed.

Lemma append_String c s t : (String c s ++ t)%string = String c (s ++ t).
Proof. reflexivity. Qed.

Lemma size_nonneg s : 0 <= size s.
Proof. unfold size. lia. Qed.

Lemma size_String c s : size (String c s) = size s + 1.
Proof. unfold size. simpl String.length. lia. Qed.

Lemma size_append s t : size (s ++ t)%string = size s + size t.
Proof.
  unfold size.
  induction s as [|c s IH];
    rewrite ?append_empty, ?append_String; cbn [String.length]; lia.
Qed.

Lemma last_not_of_from_app s t chars i acc :
  last_not_of_from (s ++ t)%string chars i acc =
  last_not_of_from t chars (i + size s) (last_not_of_from s chars i acc).
Proof.
  revert i acc. induction s as [|c s IH]; intros i acc.
  - rewrite append_empty. simpl. f_equal. unfold size. simpl. lia.
  - rewrite append_String. simpl. rewrite IH, size_String. f_equal. lia.
Qed.

Lemma last_not_of_from_all_in s chars i acc :
  all_in s chars = true -> last_not_of_from s chars i acc = acc.
Proof.
  revert i acc. induction s as [|c s IH]; intros i acc H; simpl in *.
  - reflexivity.
  - apply andb_prop in H as [Hc Hs]. rewrite Hc. now apply IH.
Qed.

Lemma last_char_snoc s :
  s <> EmptyString ->
  exists s' c, s = (s' ++ String c EmptyString)%string /\ last_char s = Some c.
Proof.
  induction s as [|c s IH]; intros Hne; [congruence|].
  destruct s as [|d s].
  - exists EmptyString, c. split; reflexivity.
  - destruct IH as (s' & x & Heq & Hl); [congruence|].
    exists (String c s'), x. split.
    + rewrite append_String. now rewrite <- Heq.
    + exact Hl.
Qed.

(** The index [addRule] hands to [erase] is the length of the line without
    its trailing blanks; when the line is all blanks, [npos + 1] wraps
    to [0]. *)
Lemma strip_index body trail chars :
  all_in trail chars = true ->
  ends_outside body chars = true ->
  size (body ++ trail)%string <= npos ->
  size_t_add (find_last_not_of (body ++ trail)%string chars) 1 = size body.
Proof.
  intros Htrail Hbody Hsize.
  unfold find_last_not_of. rewrite last_not_of_from_app.
  rewrite (last_not_of_from_all_in _ _ _ _ Htrail).
  rewrite size_append in Hsize. pose proof (size_nonneg trail) as Ht.
  destruct body as [|c body].
  - reflexivity.
  - destruct (last_char_snoc (String c body)) as (b' & x & Heq & Hl);
      [congruence|].
    unfold ends_outside in Hbody. rewrite Hl in Hbody.
    apply negb_true_iff in Hbody.
    rewrite Heq in *. rewrite last_not_of_from_app. simpl. rewrite Hbody.
    simpl.
    rewrite size_append, size_String in *.
    pose proof (size_nonneg b') as Hb.
    replace (size EmptyString) with 0 in * by reflexivity.
    unfold size_t_add, npos, size_t_modulus in *.
    rewrite Z.mod_small; lia.
Qed.

Lemma erase_append s t : erase (s ++ t)%string (size s) = s.
Proof.
  unfold erase, size. rewrite Nat2Z.id.
  induction s as [|c s IH].
  - rewrite append_empty. now destruct t.
  - rewrite append_String. simpl. now rewrite IH.
Qed.

(** Every line splits into a part that does not end in a blank and a run of
    blanks. *)
Lemma line_decomposes line chars :
  exists body trail,
    line = (body ++ trail)%string /\
    all_in trail chars = true /\ ends_outside body chars = true.
Proof.
  induction line as [|c line (body & trail & Heq & Ht & Hb)].
  - exists EmptyString, EmptyString. repeat split.
  - destruct body as [|d body].
    + destruct (is_in c chars) eqn:Hc.
      * exists EmptyString, (String c trail).
        rewrite append_empty in *. subst line.
        repeat split. simpl. now rewrite Hc, Ht.
      * exists (String c EmptyString), trail.
        rewrite append_String, append_empty in *. subst line.
        repeat split; [exact Ht|]. unfold ends_outside. simpl. now rewrite Hc.
    + exists (String c (String d body)), trail. subst line.
      repeat split; [exact Ht|]. exact Hb.
Qed.

Lemma prefix_empty s : String.prefix EmptyString s = true.
Proof. now destruct s. Qed.

Lemma find_empty s : find s EmptyString = 0.
Proof. unfold find. destruct s; reflexivity. Qed.

Lemma prefix_iff pat s :
  String.prefix pat s = true <-> exists b, s = (pat ++ b)%string.
Proof.
  revert s. induction pat as [|c pat IH]; intros s.
  - rewrite prefix_empty. split; [|reflexivity]. intros _. now exists s.
  - destruct s as [|d s]; simpl.
    + split; [discriminate|]. intros [b Hb]. discriminate.
    + destruct (ascii_dec c d) as [->|Hne].
      * rewrite IH. split; intros [b Hb]; exists b.
        -- now rewrite append_String, <- Hb.
        -- rewrite append_String in Hb. now injection Hb.
      * split; [discriminate|]. intros [b Hb].
        rewrite append_String in Hb. injection Hb as Hd _. congruence.
Qed.

(** [find] answers an index where the pattern starts, or [npos]. *)
Lemma find_from_sound s pat : forall i,
  find_from s pat i <> npos -> exists a b, s = (a ++ pat ++ b)%string.
Proof.
  induction s as [|c s IH]; intros i Hf; cbn [find_from] in Hf.
  - destruct (String.prefix pat EmptyString) eqn:Hp; [|congruence].
    apply prefix_iff in Hp as [b Hb]. now exists EmptyString, b.
  - destruct (String.prefix pat (String c s)) eqn:Hp.
    + apply prefix_iff in Hp as [b Hb]. now exists EmptyString, b.
    + destruct (IH _ Hf) as (a & b & ->). now exists (String c a), b.
Qed.

(** Where the pattern occurs, [find] answers an index inside the string. *)
Lemma find_from_complete s pat : forall i a b,
  s = (a ++ pat ++ b)%string ->
  exists j, 0 <= j /\ j + size pat <= size s /\ find_from s pat i = i + j.
Proof.
  induction s as [|c s IH]; intros i a b Hs.
  - destruct a; [|discriminate]. rewrite append_empty in Hs.
    destruct pat; [|discriminate].
    exists 0. simpl. unfold size. simpl. lia.
  - cbn [find_from]. destruct (String.prefix pat (String c s)) eqn:Hp.
    + exists 0. apply prefix_iff in Hp as [b' Hb'].
      rewrite Hb', size_append. pose proof (size_nonneg b'). lia.
    + destruct a as [|d a].
      * rewrite append_empty in Hs.
        assert (String.prefix pat (String c s) = true)
          by (apply prefix_iff; now exists b).
        congruence.
      * rewrite append_String in Hs. injection Hs as _ Hs.
        destruct (IH (i + 1) a b Hs) as (j & Hj & Hle & ->).
        exists (j + 1). rewrite size_String. lia.
Qed.

Lemma is_in_append c a b : is_in c (a ++ b)%string = is_in c a || is_in c b.
Proof.
  induction a as [|d a IH]; [reflexivity|].
  rewrite append_String. simpl. rewrite IH. now rewrite orb_assoc.
Qed.

(** After [std::replace(.., a, b)] with [a <> b] no [a] is left. *)
Lemma replace_removes s a b : a <> b -> is_in a (replace s a b) = false.
Proof.
  intros Hab. induction s as [|c s IH]; [reflexivity|]. simpl. rewrite IH.
  destruct (Ascii.eqb_spec c a) as [->|Hca].
  - destruct (Ascii.eqb_spec a b); [congruence|reflexivity].
  - destruct (Ascii.eqb_spec a c); [congruence|reflexivity].
Qed.

Lemma replace_idempotent s a b :
  a <> b -> replace (replace s a b) a b = replace s a b.
Proof.
  intros Hab. induction s as [|c s IH]; [reflexivity|]. simpl. rewrite IH.
  destruct (Ascii.eqb_spec c a) as [->|Hca].
  - destruct (Ascii.eqb_spec b a); [congruence|reflexivity].
  - destruct (Ascii.eqb_spec c a); [congruence|reflexivity].
Qed.

(** [erase] keeps a prefix, so what it leaves is empty or starts as the
    string did. *)
Lemma front_erase s pos : front (erase s pos) = None \/ front (erase s pos) = front s.
Proof.
  unfold erase. destruct (Z.to_nat pos) as [|n].
  - left. now destruct s.
  - destruct s as [|c s]; [now left|now right].
Qed.

Lemma erase_zero s : erase s 0 = EmptyString.
Proof. unfold erase. now destruct s. Qed.

Lemma ends_outside_tail c s chars :
  ends_outside (String c s) chars = true -> ends_outside s chars = true.
Proof. unfold ends_outside. simpl. now destruct s. Qed.

End StdStringFacts.

(** ** The ignore matcher *)

Module GitIgnoreFacts.
Import StdString StdStringFacts GitIgnore.

(** The rule a stripped line stands for, in the words of the
    specification: nothing for an empty line or a comment, a negated rule
    over the remainder after a leading [!], else a plain rule over the
    whole text. *)
Definition kept_rule (stripped : string) : option rule :=
  match stripped with
  | EmptyString => None
  | String c rest =>
      if Ascii.eqb c "#" then None
      else if Ascii.eqb c "!" then Some (true, rest)
      else Some (false, stripped)
  end.

Lemma addRule_app line rules_ :
  addRule line rules_ = rules_ ++ addRule line [].
Proof.
  unfold addRule.
  destruct (front _) as [c|]; [|now rewrite app_nil_r].
  destruct (Ascii.eqb c "#"); [now rewrite app_nil_r|].
  destruct (Ascii.eqb c "!"); reflexivity.
Qed.

Lemma fold_addRule lines acc :
  fold_left (fun rules_ line => addRule line rules_) lines acc =
  acc ++ make lines.
Proof.
  unfold make. revert acc.
  induction lines as [|l lines IH]; intros acc; simpl.
  - now rewrite app_nil_r.
  - rewrite IH, (IH (addRule l [])), (addRule_app l acc).
    now rewrite app_assoc.
Qed.

Lemma make_cons line lines : make (line :: lines) = addRule line [] ++ make lines.
Proof. unfold make at 1. simpl. apply fold_addRule. Qed.

Lemma make_app l1 l2 : make (l1 ++ l2) = make l1 ++ make l2.
Proof.
  unfold make at 1. rewrite fold_left_app. fold (make l1).
  apply fold_addRule.
Qed.

Lemma addRule_stripped body trail rules_ :
  all_in trail trailing_blanks = true ->
  ends_outside body trailing_blanks = true ->
  size (body ++ trail)%string <= npos ->
  addRule (body ++ trail)%string rules_ = rules_ ++ option_list (kept_rule body).
Proof.
  intros Ht Hb Hs. unfold addRule.
  rewrite (strip_index _ _ _ Ht Hb Hs), erase_append.
  destruct body as [|c rest]; simpl.
  - now rewrite app_nil_r.
  - destruct (Ascii.eqb c "#"); [now rewrite app_nil_r|].
    destruct (Ascii.eqb c "!"); reflexivity.
Qed.

(** The loop body of [isIgnored] copies the [neg] flag of a matching rule
    into [ignored]. *)
Lemma isIgnored_step_flag p ignored r :
  isIgnored_step p ignored r = if match_ p (snd r) then fst r else ignored.
Proof. unfold isIgnored_step. destruct r as [[] pat], (match_ p pat); reflexivity. Qed.

(** Lines without a leading [!] never make [isIgnored] answer [true]. *)
Lemma isIgnored_plain_rules rules_ path :
  Forall (fun r => fst r = false) rules_ -> isIgnored rules_ path = false.
Proof.
  unfold isIgnored. intros H.
  induction H as [|r rules_ Hr _ IH]; simpl; [reflexivity|].
  rewrite isIgnored_step_flag, Hr. now destruct (match_ _ _).
Qed.

(** [match] is containment: the pattern occurs somewhere in the path. *)
Lemma match_substring path pattern :
  size path <= npos ->
  match_ path pattern = true <->
  exists a b, path = (a ++ pattern ++ b)%string.
Proof.
  intros Hsize. unfold match_, find. rewrite negb_true_iff, Z.eqb_neq. split.
  - apply find_from_sound.
  - intros (a & b & Hp).
    destruct pattern as [|c pattern].
    + fold (find path EmptyString). now rewrite find_empty.
    + destruct (find_from_complete path _ 0 a b Hp) as (j & Hj & Hle & ->).
      rewrite size_String in Hle. pose proof (size_nonneg pattern). lia.
Qed.

(** No matching rule: not ignored. *)
Lemma isIgnored_no_match rules_ path :
  Forall (fun r => match_ (replace path "092" "/") (snd r) = false) rules_ ->
  isIgnored rules_ path = false.
Proof.
  unfold isIgnored. intros H.
  induction H as [|r rules_ Hr _ IH]; simpl; [reflexivity|].
  now rewrite isIgnored_step_flag, Hr.
Qed.

(** The answer of [isIgnored] is the [neg] flag of the last rule whose
    pattern occurs in the normalized path, whatever the rules before it
    said. *)
Lemma isIgnored_last_match before r after path :
  match_ (replace path "092" "/") (snd r) = true ->
  Forall (fun r' => match_ (replace path "092" "/") (snd r') = false) after ->
  isIgnored (before ++ r :: after) path = fst r.
Proof.
  unfold isIgnored. intros Hr Hafter.
  rewrite fold_left_app. simpl. rewrite isIgnored_step_flag, Hr.
  generalize (fst r). clear Hr.
  induction Hafter as [|r' after Hr' _ IH]; intros flag; simpl; [reflexivity|].
  rewrite isIgnored_step_flag, Hr'. apply IH.
Qed.

(** *** What the stored rules look like *)

(** A stored rule is well formed: its pattern does not end in a blank, and
    the pattern of a rule without the [neg] flag is not empty and starts
    with neither [#] nor [!]. *)
Definition rule_ok (r : rule) : Prop :=
  ends_outside (snd r) trailing_blanks = true /\
  (fst r = false ->
   exists c rest, snd r = String c rest /\ c <> "#"%char /\ c <> "!"%char).

(** A line that does not start with [!] adds no rule with the [neg] flag. *)
Lemma addRule_no_bang line :
  front line <> Some "!"%char -> Forall (fun r => fst r = false) (addRule line []).
Proof.
  intros Hc. unfold addRule.
  destruct (front_erase line (size_t_add (find_last_not_of line trailing_blanks) 1))
    as [H|H]; rewrite H.
  - constructor.
  - destruct (front line) as [c|]; [|constructor].
    destruct (Ascii.eqb c "#"); [constructor|].
    destruct (Ascii.eqb_spec c "!") as [->|_]; [congruence|].
    now repeat constructor.
Qed.

Lemma make_no_bang lines :
  Forall (fun l => front l <> Some "!"%char) lines ->
  Forall (fun r => fst r = false) (make lines).
Proof.
  induction 1 as [|l lines Hl _ IH]; [constructor|].
  rewrite make_cons. apply Forall_app. split; [now apply addRule_no_bang|exact IH].
Qed.

(** A line that starts with [#] adds nothing. *)
Lemma addRule_comment line rules_ :
  front line = Some "#"%char -> addRule line rules_ = rules_.
Proof.
  intros Hc. unfold addRule.
  destruct (front_erase line (size_t_add (find_last_not_of line trailing_blanks) 1))
    as [H|H]; rewrite H; [reflexivity|].
  now rewrite Hc.
Qed.

(** A line of blanks only adds nothing: [npos + 1] is [0]. *)
Lemma addRule_blank line rules_ :
  all_in line trailing_blanks = true -> addRule line rules_ = rules_.
Proof.
  intros Hb. unfold addRule, find_last_not_of.
  rewrite (last_not_of_from_all_in _ _ _ _ Hb).
  change (size_t_add npos 1) with 0. now rewrite erase_zero.
Qed.

Lemma kept_rule_ok body r :
  ends_outside body trailing_blanks = true ->
  kept_rule body = Some r -> rule_ok r.
Proof.
  intros Hb Hr. destruct body as [|c rest]; [discriminate|]. simpl in Hr.
  destruct (Ascii.eqb_spec c "#") as [->|Hc1]; [discriminate|].
  destruct (Ascii.eqb_spec c "!") as [->|Hc2]; injection Hr as <-; split; simpl.
  - eapply ends_outside_tail; eauto.
  - discriminate.
  - exact Hb.
  - intros _. now exists c, rest.
Qed.

Lemma addRule_ok line :
  size line <= npos -> Forall rule_ok (addRule line []).
Proof.
  intros Hs.
  destruct (line_decomposes line trailing_blanks) as (body & trail & -> & Ht & Hb).
  rewrite (addRule_stripped body trail [] Ht Hb Hs). simpl.
  destruct (kept_rule body) as [r|] eqn:Hr; [|constructor].
  constructor; [|constructor]. eapply kept_rule_ok; eauto.
Qed.

Lemma make_ok lines :
  Forall (fun l => size l <= npos) lines -> Forall rule_ok (make lines).
Proof.
  induction 1 as [|l lines Hl _ IH]; [constructor|].
  rewrite make_cons. apply Forall_app. split; [now apply addRule_ok|exact IH].
Qed.

Lemma addRule_length line : (length (addRule line []) <= 1)%nat.
Proof.
  unfold addRule. destruct (front _) as [c|]; [|simpl; lia].
  destruct (Ascii.eqb c "#"); [simpl; lia|].
  destruct (Ascii.eqb c "!"); simpl; lia.
Qed.

Lemma make_length lines : (length (make lines) <= length lines)%nat.
Proof.
  induction lines as [|l lines IH]; [reflexivity|].
  rewrite make_cons, length_app. pose proof (addRule_length l). simpl. lia.
Qed.

(** *** Backslashes *)

(** A pattern that holds a backslash occurs in no normalized path. *)
Lemma backslash_pattern_no_match path pattern :
  is_in "092" pattern = true -> match_ (replace path "092" "/") pattern = false.
Proof.
  intros Hb. destruct (match_ _ _) eqn:Hm; [|reflexivity].
  unfold match_, find in Hm. rewrite negb_true_iff, Z.eqb_neq in Hm.
  apply find_from_sound in Hm as (a & b & Hp).
  assert (Hin : is_in "092" (replace path "092" "/") = true).
  { rewrite Hp, !is_in_append, Hb. now rewrite orb_true_r. }
  rewrite replace_removes in Hin; [discriminate|]. discriminate.
Qed.

(** A rule that does not match is as good as absent. *)
Lemma isIgnored_skip before r after path :
  match_ (replace path "092" "/") (snd r) = false ->
  isIgnored (before ++ r :: after) path = isIgnored (before ++ after) path.
Proof.
  unfold isIgnored. intros Hr. rewrite !fold_left_app. simpl.
  now rewrite isIgnored_step_flag, Hr.
Qed.

Lemma isIgnored_normalized rules_ path :
  isIgnored rules_ (replace path "092" "/") = isIgnored rules_ path.
Proof. unfold isIgnored. rewrite replace_idempotent; [reflexivity|discriminate]. Qed.

(** *** The last matching rule *)

(** The last rule of the list whose pattern [match] finds in [p]. *)
Definition last_matching (p : string) (rules_ : list rule) : option rule :=
  last (filter (fun r => match_ p (snd r) = true) rules_).

Lemma fold_isIgnored_step p rules_ : forall ignored,
  fold_left (isIgnored_step p) rules_ ignored =
  from_option fst ignored (last_matching p rules_).
Proof.
  unfold last_matching.
  induction rules_ as [|r rules_ IH]; intros ignored; [reflexivity|].
  simpl. rewrite IH, isIgnored_step_flag.
  destruct (match_ p (snd r)) eqn:Hm.
  - rewrite filter_cons_True by exact Hm. rewrite last_cons.
    now destruct (last _).
  - rewrite filter_cons_False; [reflexivity|]. now rewrite Hm.
Qed.

Lemma match_empty_pattern p : match_ p EmptyString = true.
Proof. unfold match_. now rewrite find_empty. Qed.

End GitIgnoreFacts.

(** ** The order of [std::string] and the sort *)

Module OrderFacts.
Import StdStringFacts.

Lemma ascii_compare_refl c : Ascii.compare c c = Eq.
Proof. apply N.compare_refl. Qed.

Lemma compare_refl s : String.compare s s = Eq.
Proof.
  induction s as [|c s IH]; simpl; [reflexivity|].
  now rewrite ascii_compare_refl.
Qed.

Lemma ltb_irrefl s : String.ltb s s = false.
Proof. unfold String.ltb. now rewrite compare_refl. Qed.

Lemma ltb_asym a b : String.ltb a b = true -> String.ltb b a = false.
Proof.
  unfold String.ltb. rewrite (String.compare_antisym b a).
  now destruct (String.compare a b).
Qed.

(** [a >= b] and [b >= c] give [a >= c]. *)
Lemma compare_ge_trans a : forall b c,
  String.compare a b <> Lt -> String.compare b c <> Lt -> String.compare a c <> Lt.
Proof.
  induction a as [|x a IH]; intros [|y b] [|z c]; simpl; try congruence.
  unfold Ascii.compare.
  destruct (N.compare_spec (N_of_ascii x) (N_of_ascii y)),
           (N.compare_spec (N_of_ascii y) (N_of_ascii z)),
           (N.compare_spec (N_of_ascii x) (N_of_ascii z));
    try congruence; try lia; eauto.
Qed.

Lemma ltb_ge_trans a b c :
  String.ltb a b = false -> String.ltb b c = false -> String.ltb a c = false.
Proof.
  unfold String.ltb. intros Hab Hbc.
  pose proof (compare_ge_trans a b c) as H.
  destruct (String.compare a b), (String.compare b c), (String.compare a c);
    try discriminate; try reflexivity; exfalso; apply H; congruence.
Qed.

(** A string is smaller than each of its proper extensions. *)
Lemma ltb_append s t : t <> EmptyString -> String.ltb s (s ++ t)%string = true.
Proof.
  intros Ht. unfold String.ltb.
  induction s as [|c s IH].
  - rewrite append_empty. destruct t; [congruence|reflexivity].
  - rewrite append_String. simpl. now rewrite ascii_compare_refl.
Qed.

Lemma append_assoc (a b c : string) : ((a ++ b) ++ c)%string = (a ++ b ++ c)%string.
Proof.
  induction a as [|x a IH]; [reflexivity|].
  rewrite !append_String. now rewrite IH.
Qed.

Section Sort.
Context {A : Type} (comp : A -> A -> bool).

(** After the sort no element is [comp]-before one that stands earlier. *)
Definition in_order (a b : A) : Prop := comp b a = false.

Hypothesis comp_asym : forall a b, comp a b = true -> comp b a = false.
Hypothesis in_order_trans : forall a b c, in_order a b -> in_order b c -> in_order a c.

Lemma sort_insert_perm x l : Sync.sort_insert comp x l ≡ₚ x :: l.
Proof.
  induction l as [|y l IH]; simpl; [reflexivity|].
  destruct (comp y x); [|reflexivity].
  rewrite IH. apply Permutation_swap.
Qed.

Lemma std_sort_perm l : Sync.std_sort comp l ≡ₚ l.
Proof.
  induction l as [|x l IH]; simpl; [reflexivity|].
  now rewrite sort_insert_perm, IH.
Qed.

Lemma sort_insert_sorted x l :
  StronglySorted in_order l -> StronglySorted in_order (Sync.sort_insert comp x l).
Proof.
  induction 1 as [|y l Hs IH Hy]; simpl.
  - repeat constructor.
  - destruct (comp y x) eqn:Hc.
    + constructor; [exact IH|].
      rewrite sort_insert_perm. constructor; [|exact Hy].
      now apply comp_asym.
    + constructor; [now constructor|].
      constructor; [exact Hc|].
      eapply Forall_impl; [exact Hy|].
      intros z Hz. now apply (in_order_trans x y z).
Qed.

Lemma std_sort_sorted l : StronglySorted in_order (Sync.std_sort comp l).
Proof.
  induction l as [|x l IH]; simpl; [constructor|].
  now apply sort_insert_sorted.
Qed.

(** In a sorted list, whatever is [comp]-before [p] stands before [p]. *)
Lemma sorted_before l1 p l2 k :
  StronglySorted in_order (l1 ++ p :: l2) ->
  comp p p = false ->
  k ∈ l1 ++ p :: l2 -> comp k p = true -> k ∈ l1.
Proof.
  intros Hs Hirr Hk Hkp.
  apply elem_of_app in Hk as [Hk|Hk]; [exact Hk|].
  apply StronglySorted_app in Hs as (_ & _ & Hs).
  apply StronglySorted_cons in Hs as [Hp _].
  apply elem_of_cons in Hk as [->|Hk]; [congruence|].
  rewrite Forall_forall in Hp. apply Hp in Hk.
  unfold in_order in Hk. congruence.
Qed.

End Sort.

End OrderFacts.

(** ** The mirror engine *)

Module SyncFacts.
Import Fs Run Sync.
Local Open Scope run_scope.

(** No proper ancestor of [rel] in the tree is a regular file, so the
    directories leading to [rel] exist or can be created. *)
Definition no_file_above (m : gmap path node) (rel : path) : Prop :=
  forall q s t, q `prefix_of` parent_path rel -> m !! q <> Some (File s t).

(** The three ways a destination file is out of date. *)
Definition dst_absent (m : gmap path node) (rel : path) : Prop :=
  m !! rel = None.

Definition dst_mtime_differs (m : gmap path node) (rel : path) (smtime : Z) : Prop :=
  exists ds dt, m !! rel = Some (File ds dt) /\ dt <> smtime.

Definition dst_size_differs (m : gmap path node) (rel : path) (ssize : Z) : Prop :=
  exists ds dt, m !! rel = Some (File ds dt) /\ ds <> ssize.

Definition stale (m : gmap path node) (rel : path) (ssize smtime : Z) : Prop :=
  dst_absent m rel \/ dst_mtime_differs m rel smtime \/ dst_size_differs m rel ssize.

(** [syncFile] ran between two states: it wrote its one line, the report of
    the copy or the error it caught. *)
Definition copy_reported (e : env) (rel : path) (st st' : state) : Prop :=
  out st' = out st ++ [COPY (abs_string (src_root e) rel) (abs_string (dst_root e) rel)].

Definition copy_failed (st st' : state) : Prop :=
  exists what, out st' = out st ++ [ERROR what].

(** *** Directory times *)

(** [o'] is [o], or both are directories: the entry is the same but for
    the time of a directory. *)
Definition same_but_dir_time (o o' : option node) : Prop :=
  o' = o \/ exists t t', o = Some (Dir t) /\ o' = Some (Dir t').

Lemma same_but_dir_time_refl o : same_but_dir_time o o.
Proof. now left. Qed.

Lemma same_but_dir_time_trans o1 o2 o3 :
  same_but_dir_time o1 o2 -> same_but_dir_time o2 o3 -> same_but_dir_time o1 o3.
Proof.
  intros [->|(t & t' & -> & ->)] [->|(u & u' & Hu & ->)].
  - now left.
  - right. eauto.
  - right. eauto.
  - right. eauto.
Qed.

Lemma same_but_dir_time_file o o' s t :
  same_but_dir_time o o' -> o = Some (File s t) <-> o' = Some (File s t).
Proof. intros [->|(u & u' & -> & ->)]; [tauto|]. split; discriminate. Qed.

Lemma same_but_dir_time_none o o' :
  same_but_dir_time o o' -> o = None <-> o' = None.
Proof. intros [->|(u & u' & -> & ->)]; [tauto|]. split; discriminate. Qed.

Lemma same_but_dir_time_some o o' :
  same_but_dir_time o o' -> is_Some o <-> is_Some o'.
Proof. intros [->|(u & u' & -> & ->)]; [tauto|]. split; eauto. Qed.

Lemma same_but_dir_time_dir o o' :
  same_but_dir_time o o' ->
  (exists t, o = Some (Dir t)) <-> (exists t, o' = Some (Dir t)).
Proof. intros [->|(u & u' & -> & ->)]; [tauto|]. split; eauto. Qed.

Lemma lookup_touch_dir t p m k :
  touch_dir t p m !! k =
  match m !! k with
  | Some (Dir t0) => Some (Dir (if decide (k = p) then t else t0))
  | o => o
  end.
Proof.
  unfold touch_dir. destruct (decide (k = p)) as [->|Hne].
  - destruct (m !! p) as [[s u|u]|] eqn:Hp; rewrite ?lookup_insert_eq, ?Hp; reflexivity.
  - destruct (m !! p) as [[s u|u]|] eqn:Hp; rewrite ?lookup_insert_ne by congruence;
      now destruct (m !! k) as [[]|].
Qed.

Lemma lookup_touch_dir_ne t p m k : k <> p -> touch_dir t p m !! k = m !! k.
Proof.
  intros Hne. rewrite lookup_touch_dir.
  destruct (m !! k) as [[]|]; try reflexivity. now rewrite decide_False.
Qed.

Lemma touch_dir_same t p m k : same_but_dir_time (m !! k) (touch_dir t p m !! k).
Proof.
  rewrite lookup_touch_dir. destruct (m !! k) as [[s u|u]|]; [now left| |now left].
  right. eauto.
Qed.

Lemma lookup_touch_dir_file t p m k s u :
  touch_dir t p m !! k = Some (File s u) <-> m !! k = Some (File s u).
Proof. symmetry. apply same_but_dir_time_file, touch_dir_same. Qed.

Lemma lookup_touch_dir_none t p m k : touch_dir t p m !! k = None <-> m !! k = None.
Proof. symmetry. apply same_but_dir_time_none, touch_dir_same. Qed.

Lemma lookup_touch_dir_some t p m k : is_Some (touch_dir t p m !! k) <-> is_Some (m !! k).
Proof. symmetry. apply same_but_dir_time_some, touch_dir_same. Qed.

(** An empty directory is one without entries, whatever their times. *)
Lemma empty_dir_same_keys m m' p :
  (forall k, is_Some (m' !! k) -> is_Some (m !! k)) ->
  empty_dir m p -> empty_dir m' p.
Proof.
  intros Hsub Hempty k v Hk. destruct (Hsub k) as [v0 Hv0]; [eauto|].
  exact (Hempty k v0 Hv0).
Qed.

(** *** [create_directories] *)

(** What [mkdirs] does to one key: nothing, or the key is on the way and
    is now a directory with the time of the call, having been a directory
    (in which something was created) or absent (and created). *)
Lemma mkdirs_lookup e todo : forall done m m' k,
  mkdirs e done todo m = Some m' ->
  m' !! k = m !! k \/
  exists q, q `prefix_of` todo /\ k = (done ++ q)%list /\
            m' !! k = Some (Dir (clock e)) /\
            ((exists t, m !! k = Some (Dir t)) \/ (m !! k = None /\ q <> [])).
Proof.
  induction todo as [|c todo IH]; intros done m m' k Hm; simpl in Hm.
  - left. congruence.
  - assert (Hshift : forall m2 : gmap path node,
              (k <> (done ++ [c])%list -> m2 !! k = m !! k) ->
              (k = (done ++ [c])%list -> m !! k = None \/ m2 !! k = m !! k) ->
              (exists q, q `prefix_of` todo /\ k = ((done ++ [c]) ++ q)%list /\
                 m' !! k = Some (Dir (clock e)) /\
                 ((exists t, m2 !! k = Some (Dir t)) \/ (m2 !! k = None /\ q <> []))) ->
              exists q, q `prefix_of` c :: todo /\ k = (done ++ q)%list /\
                 m' !! k = Some (Dir (clock e)) /\
                 ((exists t, m !! k = Some (Dir t)) \/ (m !! k = None /\ q <> []))).
    { intros m2 Hne Heq (q & Hpre & Hk & Hd & Hwas). exists (c :: q).
      split; [now apply prefix_cons|]. split; [now rewrite Hk, <- app_assoc|].
      split; [exact Hd|].
      destruct (decide (k = (done ++ [c])%list)) as [Hkq|Hkq].
      - destruct (Heq Hkq) as [Hnone|Hsame]; [right; split; [exact Hnone|discriminate]|].
        rewrite <- Hsame. destruct Hwas as [?|[? _]]; [now left|].
        right. split; [assumption|discriminate].
      - rewrite <- (Hne Hkq). destruct Hwas as [?|[? _]]; [now left|].
        right. split; [assumption|discriminate]. }
    destruct (m !! (done ++ [c])%list) as [[s t|t]|] eqn:Hq; [discriminate| |].
    + destruct (IH _ _ _ k Hm) as [Hsame|Hon]; [now left|right].
      apply (Hshift m); auto.
    + set (m2 := <[(done ++ [c])%list := Dir (clock e)]> (touch_dir (clock e) done m)) in *.
      assert (Hm2 : forall x, x <> (done ++ [c])%list -> x <> done -> m2 !! x = m !! x).
      { intros x H1 H2. unfold m2.
        rewrite lookup_insert_ne by congruence. now apply lookup_touch_dir_ne. }
      destruct (decide (k = (done ++ [c])%list)) as [Hkq|Hkq].
      * right. exists [c]. split; [apply prefix_cons, prefix_nil|].
        split; [exact Hkq|]. subst k. split.
        -- destruct (IH _ _ _ (done ++ [c])%list Hm) as [->|(q & _ & _ & Hd & _)];
             [apply lookup_insert_eq|exact Hd].
        -- right. split; [exact Hq|discriminate].
      * destruct (IH _ _ _ k Hm) as [Hsame|Hon].
        -- destruct (decide (k = done)) as [->|Hkd]; [|left; rewrite Hsame; now apply Hm2].
           unfold m2 in Hsame. rewrite lookup_insert_ne in Hsame by congruence.
           rewrite lookup_touch_dir in Hsame.
           destruct (m !! done) as [[s t|t]|] eqn:Hd; [now left| |now left].
           right. exists []. split; [apply prefix_nil|].
           split; [now rewrite app_nil_r|].
           rewrite decide_True in Hsame by reflexivity. split; [exact Hsame|]. eauto.
        -- right. apply (Hshift m2); [| |exact Hon].
           ++ intros _. destruct Hon as (q & _ & Hk & _). apply Hm2; [exact Hkq|].
              intros ->. apply (f_equal length) in Hk.
              rewrite !length_app in Hk. simpl in Hk. lia.
           ++ intros H. contradiction.
Qed.

Lemma mkdirs_same e todo done m m' k :
  mkdirs e done todo m = Some m' -> is_Some (m !! k) ->
  same_but_dir_time (m !! k) (m' !! k).
Proof.
  intros Hm Hk. destruct (mkdirs_lookup e todo done m m' k Hm)
    as [->|(q & _ & _ & Hd & [[t Ht]|[Hnone _]])].
  - now left.
  - right. eauto.
  - rewrite Hnone in Hk. now destruct Hk.
Qed.

Lemma mkdirs_keeps_file e todo done m m' k s t :
  mkdirs e done todo m = Some m' -> m !! k = Some (File s t) ->
  m' !! k = Some (File s t).
Proof.
  intros Hm Hk. apply (same_but_dir_time_file (m !! k)); [|exact Hk].
  eapply mkdirs_same; eauto.
Qed.

Lemma mkdirs_keeps_dir e todo done m m' k t :
  mkdirs e done todo m = Some m' -> m !! k = Some (Dir t) ->
  exists t', m' !! k = Some (Dir t').
Proof.
  intros Hm Hk. apply (same_but_dir_time_dir (m !! k)); [|eauto].
  eapply mkdirs_same; eauto.
Qed.

Lemma mkdirs_keeps_some e todo done m m' k :
  mkdirs e done todo m = Some m' -> is_Some (m !! k) -> is_Some (m' !! k).
Proof.
  intros Hm Hk. apply (same_but_dir_time_some (m !! k)); [|exact Hk].
  eapply mkdirs_same; eauto.
Qed.

(** [mkdirs] leaves alone what is not on the way. *)
Lemma mkdirs_outside e todo done m m' k :
  mkdirs e done todo m = Some m' ->
  (forall q, q `prefix_of` todo -> k <> (done ++ q)%list) ->
  m' !! k = m !! k.
Proof.
  intros Hm Hk. destruct (mkdirs_lookup e todo done m m' k Hm)
    as [H|(q & Hpre & Heq & _)]; [exact H|].
  now destruct (Hk q Hpre).
Qed.

(** What [mkdirs] creates is on the way and a directory. *)
Lemma mkdirs_new e todo done m m' x :
  mkdirs e done todo m = Some m' -> m !! x = None -> is_Some (m' !! x) ->
  exists q, q <> [] /\ q `prefix_of` todo /\ x = (done ++ q)%list /\
            m' !! x = Some (Dir (clock e)).
Proof.
  intros Hm Hx Hx'. destruct (mkdirs_lookup e todo done m m' x Hm)
    as [H|(q & Hpre & Heq & Hd & [[t Ht]|[_ Hq]])].
  - rewrite H, Hx in Hx'. now destruct Hx'.
  - congruence.
  - exists q. auto.
Qed.

Lemma mkdirs_succeeds e todo : forall done m,
  (forall q s t, q `prefix_of` done ++ todo -> m !! q <> Some (File s t)) ->
  is_Some (mkdirs e done todo m).
Proof.
  induction todo as [|c todo IH]; intros done m H; simpl.
  - eauto.
  - assert (Hpre : (done ++ [c]) `prefix_of` done ++ c :: todo)
      by (exists todo; now rewrite <- app_assoc).
    destruct (m !! (done ++ [c])) as [[s t|t]|] eqn:Hq.
    + now apply H in Hq.
    + apply IH. intros q s' t' Hqp. apply H. now rewrite <- app_assoc in Hqp.
    + apply IH. intros q s' t' Hqp. rewrite <- app_assoc in Hqp.
      destruct (decide (q = done ++ [c])) as [->|Hne].
      * now rewrite lookup_insert_eq.
      * rewrite lookup_insert_ne by congruence.
        rewrite lookup_touch_dir_file. now apply H.
Qed.


(** Directories that are all there need no work. *)
Lemma mkdirs_noop e todo : forall done m,
  (forall q, q <> [] -> q `prefix_of` todo ->
     exists t, m !! (done ++ q) = Some (Dir t)) ->
  mkdirs e done todo m = Some m.
Proof.
  induction todo as [|c todo IH]; intros done m H; simpl; [reflexivity|].
  destruct (H [c]) as [t Ht]; [discriminate|apply prefix_cons, prefix_nil|].
  rewrite Ht. apply IH. intros q Hq Hpre.
  rewrite <- app_assoc. apply H; [discriminate|]. now apply prefix_cons.
Qed.

(** After [mkdirs] every directory on the way is there. *)
Lemma mkdirs_dirs e todo : forall done m m' q,
  mkdirs e done todo m = Some m' -> q <> [] -> q `prefix_of` todo ->
  exists t, m' !! (done ++ q) = Some (Dir t).
Proof.
  induction todo as [|c todo IH]; intros done m m' q Hm Hq Hpre; simpl in Hm.
  - apply prefix_nil_inv in Hpre. congruence.
  - destruct q as [|c' q]; [congruence|].
    pose proof (prefix_cons_inv_1 _ _ _ _ Hpre) as ->.
    apply prefix_cons_inv_2 in Hpre.
    assert (Hhere : forall m2, mkdirs e (done ++ [c]) todo m2 = Some m' ->
                      (exists t, m2 !! (done ++ [c]) = Some (Dir t)) ->
                      exists t, m' !! (done ++ c :: q) = Some (Dir t)).
    { intros m2 Hm2 [t Ht]. destruct q as [|c2 q].
      - eapply mkdirs_keeps_dir; eauto.
      - replace (done ++ c :: c2 :: q) with ((done ++ [c]) ++ c2 :: q)
          by now rewrite <- app_assoc.
        eapply IH; eauto; discriminate. }
    destruct (m !! (done ++ [c])) as [[s t|t]|] eqn:Hl; [discriminate| |].
    + eapply Hhere; eauto.
    + eapply Hhere; [exact Hm|]. eexists. apply lookup_insert_eq.
Qed.

Lemma length_parent_path (rel : path) :
  rel <> [] -> S (length (parent_path rel)) = length rel.
Proof.
  intros Hne. unfold parent_path.
  destruct (exists_last Hne) as (l & x & ->).
  rewrite removelast_last, length_app. simpl. lia.
Qed.


Lemma prefix_below_cases (q k : path) :
  q `prefix_of` k -> q = k \/ exists s, s <> [] /\ k = (q ++ s)%list.
Proof.
  intros [s ->]. destruct s as [|x s].
  - left. now rewrite app_nil_r.
  - right. exists (x :: s). split; [discriminate|reflexivity].
Qed.

Lemma not_prefix_parent (k : path) : k <> [] -> ~ k `prefix_of` parent_path k.
Proof.
  intros Hne [s Hs]. apply (f_equal length) in Hs.
  rewrite length_app in Hs. pose proof (length_parent_path k Hne). lia.
Qed.

Lemma parent_prefix (k : path) : parent_path k `prefix_of` k.
Proof.
  unfold parent_path. destruct (decide (k = [])) as [->|Hne]; [reflexivity|].
  destruct (exists_last Hne) as (l & x & ->).
  rewrite removelast_last. now exists [x].
Qed.

Lemma parent_path_ne (k : path) : k <> [] -> parent_path k <> k.
Proof. intros Hne H. apply (not_prefix_parent k Hne). now rewrite H. Qed.

(** Creating the directories above [rel] leaves [rel] itself alone. *)
Lemma mkdirs_parent_keeps e rel m m1 :
  mkdirs e [] (parent_path rel) m = Some m1 -> m1 !! rel = m !! rel.
Proof.
  intros Hm. destruct (decide (rel = [])) as [->|Hne].
  - simpl in Hm. congruence.
  - apply (mkdirs_outside e _ [] m m1 rel Hm).
    intros q Hq Heq. simpl in Heq. subst q. now apply (not_prefix_parent rel).
Qed.

Lemma create_directories_run e p m o :
  create_directories e p (State m o) =
  match mkdirs e [] p m with
  | Some m1 => (Ret tt, State m1 o)
  | None => (Throw (what e create_directories_blocked p), State m o)
  end.
Proof.
  unfold create_directories, bind, get_tree, put_tree, throw. simpl.
  now destruct (mkdirs e [] p m).
Qed.

Lemma create_parent e rel st :
  no_file_above (dst_tree st) rel ->
  exists m1,
    mkdirs e [] (parent_path rel) (dst_tree st) = Some m1 /\
    create_directories e (parent_path rel) st = (Ret tt, State m1 (out st)) /\
    m1 !! rel = dst_tree st !! rel.
Proof.
  intros Hno.
  destruct (mkdirs_succeeds e (parent_path rel) [] (dst_tree st)) as [m1 Hm1].
  { intros q s t Hq. now apply Hno. }
  exists m1. split; [exact Hm1|]. split.
  - destruct st as [m o]. rewrite create_directories_run. simpl in Hm1.
    now rewrite Hm1.
  - now apply (mkdirs_parent_keeps e).
Qed.

Lemma snoc_not_self {A} (l : list A) (x : A) : l ++ [x] <> l.
Proof.
  intros H. apply (f_equal length) in H. rewrite length_app in H. simpl in H. lia.
Qed.

(** *** The copy step on a file *)

Lemma needs_copy_run e rel ssize smtime st :
  needs_copy e rel ssize smtime st =
  match dst_tree st !! rel with
  | None => (Ret true, st)
  | Some (File ds dt) => (Ret (negb (smtime =? dt) || negb (ssize =? ds)), st)
  | Some (Dir dt) =>
      if negb (smtime =? dt) then (Ret true, st)
      else (Throw (what e file_size_directory rel), st)
  end.
Proof.
  unfold needs_copy, dst_exists, last_write_time, file_size, bind, get_tree,
    ret, throw.
  destruct (dst_tree st !! rel) as [[ds dt|dt]|] eqn:Hl; simpl;
    rewrite ?Hl; simpl; try reflexivity.
  - destruct (negb (smtime =? dt)); simpl; [reflexivity|]. now rewrite Hl.
  - destruct (negb (smtime =? dt)); simpl; [reflexivity|]. now rewrite Hl.
Qed.

Lemma lookup_opened_eq e rel size m :
  opened e rel size m !! rel = Some (File size (clock e)).
Proof. unfold opened. destruct (m !! rel); apply lookup_insert_eq. Qed.

Lemma lookup_opened_ne e rel size m k :
  k <> rel -> same_but_dir_time (m !! k) (opened e rel size m !! k).
Proof.
  intros Hne. unfold opened.
  destruct (m !! rel); rewrite lookup_insert_ne by congruence;
    [now left|apply touch_dir_same].
Qed.

Lemma lookup_opened_other e rel size m k :
  k <> rel -> k <> parent_path rel -> opened e rel size m !! k = m !! k.
Proof.
  intros Hne Hnp. unfold opened.
  destruct (m !! rel); rewrite lookup_insert_ne by congruence;
    [reflexivity|now apply lookup_touch_dir_ne].
Qed.

Lemma opened_present e rel size m v :
  m !! rel = Some v -> opened e rel size m = <[rel := File size (clock e)]> m.
Proof. intros H. unfold opened. now rewrite H. Qed.

(** What [syncFile] and the time stamp call after it leave when
    [copy_file] gets as far as opening the files. *)
Definition after_move (e : env) (rel : path) (ssize smtime : Z)
    (m : gmap path node) (o : list line) : outcome unit * state :=
  match io e rel with
  | copies =>
      (Ret tt, State (<[rel := File ssize smtime]> (opened e rel ssize m))
                     (o ++ [COPY (abs_string (src_root e) rel)
                                 (abs_string (dst_root e) rel)]))
  | fails_after written =>
      (Ret tt, State (<[rel := File written smtime]> (opened e rel written m))
                     (o ++ [ERROR (what e copy_file_write rel)]))
  | fails_at_open =>
      match m !! rel with
      | Some n => (Ret tt, State (<[rel := touch smtime n]> m)
                                 (o ++ [ERROR (what e copy_file_open rel)]))
      | None => (Throw (what e last_write_time_missing rel),
                 State m (o ++ [ERROR (what e copy_file_open rel)]))
      end
  end.

(** The copy branch of [mirror] once the parent directory is in place. *)
Lemma sync_and_stamp_run e rel ssize smtime m o :
  (syncFile e rel ssize smtime ;;; set_last_write_time e rel smtime) (State m o) =
  match m !! rel with
  | None => after_move e rel ssize smtime m o
  | Some (File ds dt) =>
      if smtime <=? dt then
        (Ret tt, State (<[rel := File ds smtime]> m)
                       (o ++ [COPY (abs_string (src_root e) rel)
                                   (abs_string (dst_root e) rel)]))
      else after_move e rel ssize smtime m o
  | Some (Dir dt) =>
      (Ret tt, State (<[rel := Dir smtime]> m)
                     (o ++ [ERROR (what e copy_file_not_regular rel)]))
  end.
Proof.
  unfold syncFile, try_catch, copy_file, move_bytes, after_move,
    set_last_write_time, bind, get_tree, put_tree, print, throw, ret. simpl.
  destruct (m !! rel) as [[ds dt|dt]|] eqn:Hl; simpl;
    [destruct (smtime <=? dt); simpl| |];
    try (destruct (io e rel) as [| |written]; simpl);
    rewrite ?lookup_opened_eq, ?Hl; reflexivity.
Qed.

Lemma copy_entry_file_run e rel ssize smtime st :
  isIgnored e (path_string rel) = false ->
  copy_entry e (rel, File ssize smtime) st =
  match needs_copy e rel ssize smtime st with
  | (Ret true, _) =>
      match create_directories e (parent_path rel) st with
      | (Ret _, st1) =>
          (syncFile e rel ssize smtime ;;; set_last_write_time e rel smtime) st1
      | (Throw what, st1) => (Throw what, st1)
      end
  | (Ret false, _) => (Ret tt, st)
  | (Throw what, _) => (Throw what, st)
  end.
Proof.
  intros Hign. unfold copy_entry. rewrite Hign.
  unfold bind at 1. rewrite needs_copy_run.
  destruct (dst_tree st !! rel) as [[ds dt|dt]|]; simpl.
  - destruct (negb (smtime =? dt) || negb (ssize =? ds)); reflexivity.
  - destruct (negb (smtime =? dt)); reflexivity.
  - reflexivity.
Qed.

(** What [copy_entry] does on a source file whose destination is absent. *)
Lemma copy_entry_absent e rel ssize smtime st :
  isIgnored e (path_string rel) = false ->
  no_file_above (dst_tree st) rel ->
  dst_tree st !! rel = None ->
  exists m1,
    mkdirs e [] (parent_path rel) (dst_tree st) = Some m1 /\
    m1 !! rel = None /\
    copy_entry e (rel, File ssize smtime) st =
      after_move e rel ssize smtime m1 (out st).
Proof.
  intros Hign Hno Hl.
  destruct (create_parent e rel st Hno) as (m1 & Hm1 & Hmk & Hsame).
  rewrite Hl in Hsame. exists m1. split; [exact Hm1|]. split; [exact Hsame|].
  rewrite copy_entry_file_run, needs_copy_run, Hl, Hmk by exact Hign.
  now rewrite sync_and_stamp_run, Hsame.
Qed.

(** What [copy_entry] does on a source file whose destination is a regular
    file of size [ds] and time [dt]. *)
Lemma copy_entry_present e rel ssize smtime st ds dt :
  isIgnored e (path_string rel) = false ->
  no_file_above (dst_tree st) rel ->
  dst_tree st !! rel = Some (File ds dt) ->
  exists m1,
    mkdirs e [] (parent_path rel) (dst_tree st) = Some m1 /\
    m1 !! rel = Some (File ds dt) /\
    copy_entry e (rel, File ssize smtime) st =
      if (smtime =? dt) && (ssize =? ds) then (Ret tt, st)
      else if smtime <=? dt then
        (Ret tt, State (<[rel := File ds smtime]> m1)
                       (out st ++ [COPY (abs_string (src_root e) rel)
                                        (abs_string (dst_root e) rel)]))
      else after_move e rel ssize smtime m1 (out st).
Proof.
  intros Hign Hno Hl.
  destruct (create_parent e rel st Hno) as (m1 & Hm1 & Hmk & Hsame).
  rewrite Hl in Hsame. exists m1. split; [exact Hm1|]. split; [exact Hsame|].
  rewrite copy_entry_file_run, needs_copy_run, Hl, Hmk by exact Hign.
  rewrite sync_and_stamp_run, Hsame.
  destruct (smtime =? dt), (ssize =? ds); reflexivity.
Qed.

(** For a destination that is not a directory, being out of date is not
    being a file of the source's size and time. *)
Lemma stale_iff m rel ssize smtime :
  (forall t, m !! rel <> Some (Dir t)) ->
  stale m rel ssize smtime <-> m !! rel <> Some (File ssize smtime).
Proof.
  intros Hnd. unfold stale, dst_absent, dst_mtime_differs, dst_size_differs.
  destruct (m !! rel) as [[ds dt|t]|]; [| now destruct (Hnd t) |].
  - split.
    + intros [H|[(?&?&H&Hne)|(?&?&H&Hne)]]; congruence.
    + intros Hne. destruct (decide (dt = smtime)) as [->|Hdt].
      * right; right. exists ds, smtime. split; [reflexivity|congruence].
      * right; left. exists ds, dt. now split.
  - split; [discriminate|]. now left.
Qed.

Lemma copy_entry_in_sync e rel ssize smtime st :
  isIgnored e (path_string rel) = false ->
  dst_tree st !! rel = Some (File ssize smtime) ->
  copy_entry e (rel, File ssize smtime) st = (Ret tt, st).
Proof.
  intros Hign Hl.
  rewrite copy_entry_file_run, needs_copy_run, Hl by exact Hign.
  now rewrite !Z.eqb_refl.
Qed.

(** The staleness test of [mirror] decides whether [syncFile] is called:
    for a source file that is not excluded, whose destination is absent or
    a regular file below existing or creatable directories, the copy step
    writes the one line of [syncFile] exactly when the destination is out
    of date, and does nothing at all otherwise. *)
Lemma copy_branch_iff_stale e rel ssize smtime st :
  isIgnored e (path_string rel) = false ->
  no_file_above (dst_tree st) rel ->
  (forall t, dst_tree st !! rel <> Some (Dir t)) ->
  let r := copy_entry e (rel, File ssize smtime) st in
  (stale (dst_tree st) rel ssize smtime ->
     copy_reported e rel st r.2 \/ copy_failed st r.2) /\
  (~ stale (dst_tree st) rel ssize smtime -> r = (Ret tt, st)).
Proof.
  intros Hign Hno Hnd r. subst r.
  rewrite (stale_iff _ _ _ _ Hnd). unfold copy_reported, copy_failed. split.
  - intros Hstale.
    assert (Hmove : forall m1,
              let r := after_move e rel ssize smtime m1 (out st) in
              out r.2 = out st ++ [COPY (abs_string (src_root e) rel)
                                        (abs_string (dst_root e) rel)] \/
              exists w, out r.2 = out st ++ [ERROR w]).
    { intros m1. unfold after_move.
      destruct (io e rel); [|destruct (m1 !! rel)|]; simpl; eauto. }
    destruct (dst_tree st !! rel) as [[ds dt|dt]|] eqn:Hl.
    + destruct (copy_entry_present e rel ssize smtime st ds dt Hign Hno Hl)
        as (m1 & _ & _ & ->).
      destruct (Z.eqb_spec smtime dt) as [Ht|Ht], (Z.eqb_spec ssize ds) as [Hs|Hs];
        try (exfalso; apply Hstale; congruence); simpl;
        (destruct (smtime <=? dt); [now left|apply Hmove]).
    + now destruct (Hnd dt).
    + destruct (copy_entry_absent e rel ssize smtime st Hign Hno Hl)
        as (m1 & _ & _ & ->).
      apply Hmove.
  - intros Hsync. apply copy_entry_in_sync; [exact Hign|].
    destruct (decide (dst_tree st !! rel = Some (File ssize smtime))); tauto.
Qed.

(** *** The deletion pass *)

(** [k] lies somewhere below [p]. *)
Definition below (p k : path) : Prop := exists s, s <> [] /\ k = p ++ s.

(** The source tree contains the directories that lead to its entries. *)
Definition src_closed (e : env) : Prop :=
  forall p s, src_exists e (p ++ s) = true -> src_exists e p = true.

(** The list [collectRemovals] fills, and the list the deletion loop walks. *)
Definition removal_list (e : env) (m : gmap path node) : list path :=
  filter (fun rel => to_remove e rel = true) (map_to_list m).*1.

Definition sorted_removals (e : env) (m : gmap path node) : list path :=
  std_sort (path_gt e) (removal_list e m).

(** No later path string is greater than an earlier one. *)
Definition descending (e : env) (l : list path) : Prop :=
  StronglySorted (OrderFacts.in_order (path_gt e)) l.

(** Nothing below [p] in the tree is excluded by the matcher. *)
Definition nothing_excluded_below (e : env) (m : gmap path node) (p : path) : Prop :=
  forall k, below p k -> is_Some (m !! k) -> isIgnored e (path_string k) = false.

Lemma child_of_below p k : child_of p k -> below p k.
Proof.
  intros [Hne Hp]. unfold parent_path in Hp.
  destruct (exists_last Hne) as (l & x & ->).
  rewrite removelast_last in Hp. subst l.
  exists [x]. split; [discriminate|reflexivity].
Qed.

Lemma path_string_app p s :
  p <> [] -> s <> [] ->
  path_string (p ++ s) = (path_string p ++ "/" ++ path_string s)%string.
Proof.
  unfold path_string. intros Hp Hs.
  induction p as [|x p IH]; [congruence|].
  destruct p as [|y p].
  - destruct s; [congruence|reflexivity].
  - change (String.concat "/" ((x :: y :: p) ++ s))
      with (x ++ "/" ++ String.concat "/" ((y :: p) ++ s))%string.
    rewrite IH by discriminate.
    change (String.concat "/" (x :: y :: p))
      with (x ++ "/" ++ String.concat "/" (y :: p))%string.
    now rewrite !OrderFacts.append_assoc.
Qed.

Lemma abs_string_below root p s :
  s <> [] ->
  abs_string root (p ++ s) = (abs_string root p ++ "/" ++ path_string s)%string.
Proof.
  intros Hs. destruct p as [|x p].
  - simpl. now destruct s.
  - change (abs_string root ((x :: p) ++ s))
      with (root ++ "/" ++ path_string ((x :: p) ++ s)%list)%string.
    change (abs_string root (x :: p))
      with (root ++ "/" ++ path_string (x :: p))%string.
    rewrite (path_string_app (x :: p) s) by (discriminate || assumption).
    now rewrite !OrderFacts.append_assoc.
Qed.

(** The comparator puts everything below [p] before [p]. *)
Lemma path_gt_below e p k : below p k -> path_gt e k p = true.
Proof.
  intros (s & Hs & ->). unfold path_gt.
  rewrite abs_string_below by exact Hs.
  now apply OrderFacts.ltb_append.
Qed.

Lemma path_gt_irrefl e p : path_gt e p p = false.
Proof. apply OrderFacts.ltb_irrefl. Qed.

Lemma path_gt_asym e a b : path_gt e a b = true -> path_gt e b a = false.
Proof. apply OrderFacts.ltb_asym. Qed.

Lemma path_gt_order_trans e a b c :
  OrderFacts.in_order (path_gt e) a b -> OrderFacts.in_order (path_gt e) b c ->
  OrderFacts.in_order (path_gt e) a c.
Proof. unfold OrderFacts.in_order, path_gt. apply OrderFacts.ltb_ge_trans. Qed.

Lemma sorted_removals_perm e m : sorted_removals e m ≡ₚ removal_list e m.
Proof. apply OrderFacts.std_sort_perm. Qed.

Lemma sorted_removals_descending e m : descending e (sorted_removals e m).
Proof.
  apply OrderFacts.std_sort_sorted.
  - apply path_gt_asym.
  - apply path_gt_order_trans.
Qed.

Lemma elem_of_removal_list e m k :
  k ∈ removal_list e m <-> is_Some (m !! k) /\ to_remove e k = true.
Proof.
  unfold removal_list. rewrite list_elem_of_filter, list_elem_of_fmap. split.
  - intros (Hr & [k' v] & -> & Hin). apply elem_of_map_to_list in Hin.
    split; [now exists v|exact Hr].
  - intros ([v Hv] & Hr). split; [exact Hr|].
    exists (k, v). split; [reflexivity|]. now apply elem_of_map_to_list.
Qed.

Lemma collectRemovals_run e st :
  collectRemovals e st = (Ret (removal_list e (dst_tree st)), st).
Proof. reflexivity. Qed.

Lemma prefix_below (q k : path) : q `prefix_of` k -> q = k \/ below q k.
Proof.
  intros [s ->]. destruct s as [|x s].
  - left. now rewrite app_nil_r.
  - right. exists (x :: s). split; [discriminate|reflexivity].
Qed.

(** *** [remove] *)

Lemma lookup_removed_eq e k m : removed e k m !! k = None.
Proof. unfold removed. apply lookup_touch_dir_none, lookup_delete_eq. Qed.

Lemma lookup_removed_ne e k m x :
  x <> k -> same_but_dir_time (m !! x) (removed e k m !! x).
Proof.
  intros Hne. unfold removed.
  rewrite <- (lookup_delete_ne m k x) by congruence. apply touch_dir_same.
Qed.

Lemma lookup_removed_other e k m x :
  x <> k -> x <> parent_path k -> removed e k m !! x = m !! x.
Proof.
  intros Hne Hnp. unfold removed.
  rewrite lookup_touch_dir_ne by exact Hnp. now apply lookup_delete_ne.
Qed.

Lemma remove_entry_run e k st :
  remove_entry e k st =
  match dst_tree st !! k with
  | None =>
      (Ret tt, State (dst_tree st) (out st ++ [DEL_F (abs_string (dst_root e) k)]))
  | Some (File _ _) =>
      (Ret tt, State (removed e k (dst_tree st))
                     (out st ++ [DEL_F (abs_string (dst_root e) k)]))
  | Some (Dir _) =>
      if bool_decide (empty_dir (dst_tree st) k)
      then (Ret tt, State (removed e k (dst_tree st))
                          (out st ++ [DEL_D (abs_string (dst_root e) k)]))
      else (Throw (what e remove_not_empty k), st)
  end.
Proof.
  unfold remove_entry, is_directory, remove, bind, get_tree, put_tree, print,
    ret, throw.
  destruct (dst_tree st !! k) as [[s t|t]|]; simpl; try reflexivity.
  now destruct (bool_decide (empty_dir (dst_tree st) k)).
Qed.

(** The line the deletion loop writes for a listed path. *)
Definition del_line (e : env) (m : gmap path node) (k : path) : line :=
  match m !! k with
  | Some (Dir _) => DEL_D (abs_string (dst_root e) k)
  | _ => DEL_F (abs_string (dst_root e) k)
  end.

Lemma del_line_same e m m' k :
  same_but_dir_time (m !! k) (m' !! k) -> del_line e m' k = del_line e m k.
Proof. unfold del_line. now intros [->|(t & t' & -> & ->)]. Qed.

(** One step of the deletion loop, however it ends: what is there
    afterwards was there before, and every other path has its entry, but
    for the time of the directory that held the removed one. *)
Lemma remove_entry_frame e x st :
  (forall k, k <> x ->
     same_but_dir_time (dst_tree st !! k) (dst_tree (remove_entry e x st).2 !! k)) /\
  (forall k, k <> x -> k <> parent_path x ->
     dst_tree (remove_entry e x st).2 !! k = dst_tree st !! k) /\
  (forall k, is_Some (dst_tree (remove_entry e x st).2 !! k) ->
     is_Some (dst_tree st !! k)).
Proof.
  rewrite remove_entry_run.
  assert (Hsame : (forall k, k <> x ->
                     same_but_dir_time (dst_tree st !! k) (dst_tree st !! k)) /\
                  (forall k, k <> x -> k <> parent_path x ->
                     dst_tree st !! k = dst_tree st !! k) /\
                  (forall k, is_Some (dst_tree st !! k) -> is_Some (dst_tree st !! k))).
  { split; [intros; apply same_but_dir_time_refl|]. split; auto. }
  assert (Hgone : (forall k, k <> x ->
                     same_but_dir_time (dst_tree st !! k)
                       (removed e x (dst_tree st) !! k)) /\
                  (forall k, k <> x -> k <> parent_path x ->
                     removed e x (dst_tree st) !! k = dst_tree st !! k) /\
                  (forall k, is_Some (removed e x (dst_tree st) !! k) ->
                     is_Some (dst_tree st !! k))).
  { split; [intros; now apply lookup_removed_ne|].
    split; [intros; now apply lookup_removed_other|].
    intros k Hk. destruct (decide (k = x)) as [->|Hne].
    - rewrite lookup_removed_eq in Hk. now destruct Hk.
    - now apply (same_but_dir_time_some _ _ (lookup_removed_ne e x _ k Hne)). }
  destruct (dst_tree st !! x) as [[s t|t]|]; [exact Hgone| |exact Hsame].
  destruct (bool_decide _); [exact Hgone|exact Hsame].
Qed.

(** A returning step removes its path and writes its line. *)
Lemma remove_entry_ret e x st s1 :
  remove_entry e x st = (Ret tt, s1) ->
  dst_tree s1 !! x = None /\
  out s1 = out st ++ [del_line e (dst_tree st) x].
Proof.
  rewrite remove_entry_run. unfold del_line.
  destruct (dst_tree st !! x) as [[s t|t]|] eqn:Hx.
  - intros [= <-]. simpl. split; [apply lookup_removed_eq|reflexivity].
  - destruct (bool_decide _); [|discriminate].
    intros [= <-]. simpl. split; [apply lookup_removed_eq|reflexivity].
  - intros [= <-]. simpl. split; [exact Hx|reflexivity].
Qed.

Lemma for_each_cons_run {A} (body : A -> M unit) x l st :
  for_each body (x :: l) st =
  match body x st with
  | (Ret _, s1) => for_each body l s1
  | (Throw w, s1) => (Throw w, s1)
  end.
Proof. reflexivity. Qed.

Lemma for_each_ret_cons {A} (body : A -> M unit) x l st st' :
  for_each body (x :: l) st = (Ret tt, st') ->
  exists s1, body x st = (Ret tt, s1) /\ for_each body l s1 = (Ret tt, st').
Proof.
  cbn [for_each]. unfold bind. intros H.
  destruct (body x st) as [[[]|w] s1]; [|discriminate].
  now exists s1.
Qed.

(** The deletion loop, however it ends: it creates nothing, and a path it
    did not go through keeps its entry, but for the time of a directory. *)
Lemma for_each_remove_frame e l : forall st,
  (forall k, k ∉ l ->
     same_but_dir_time (dst_tree st !! k)
       (dst_tree (for_each (remove_entry e) l st).2 !! k)) /\
  (forall k, k ∉ l -> (forall x, x ∈ l -> k <> parent_path x) ->
     dst_tree (for_each (remove_entry e) l st).2 !! k = dst_tree st !! k) /\
  (forall k, is_Some (dst_tree (for_each (remove_entry e) l st).2 !! k) ->
     is_Some (dst_tree st !! k)).
Proof.
  induction l as [|x l IH]; intros st.
  - simpl. split; [intros; apply same_but_dir_time_refl|]. split; auto.
  - rewrite for_each_cons_run.
    destruct (remove_entry_frame e x st) as (Hsame & Hother & Hsub).
    destruct (remove_entry e x st) as [[[]|w] s1]; simpl in *.
    + destruct (IH s1) as (IHsame & IHother & IHsub). split; [|split].
      * intros k Hk. apply not_elem_of_cons in Hk as [Hne Hk].
        eapply same_but_dir_time_trans; [now apply Hsame|now apply IHsame].
      * intros k Hk Hpar. apply not_elem_of_cons in Hk as [Hne Hk].
        rewrite IHother; [|exact Hk|intros y Hy; apply Hpar; now right].
        apply Hother; [exact Hne|]. apply Hpar. now left.
      * intros k Hk. apply Hsub, IHsub, Hk.
    + split; [|split].
      * intros k Hk. apply not_elem_of_cons in Hk as [Hne Hk]. now apply Hsame.
      * intros k Hk Hpar. apply not_elem_of_cons in Hk as [Hne Hk].
        apply Hother; [exact Hne|]. apply Hpar. now left.
      * exact Hsub.
Qed.

Lemma for_each_remove_keeps e l st o st' k :
  for_each (remove_entry e) l st = (o, st') ->
  k ∉ l -> same_but_dir_time (dst_tree st !! k) (dst_tree st' !! k).
Proof.
  intros Hrun Hk. destruct (for_each_remove_frame e l st) as (Hsame & _ & _).
  rewrite Hrun in Hsame. now apply Hsame.
Qed.

Lemma for_each_remove_sub e l st o st' k :
  for_each (remove_entry e) l st = (o, st') ->
  is_Some (dst_tree st' !! k) -> is_Some (dst_tree st !! k).
Proof.
  intros Hrun Hk. destruct (for_each_remove_frame e l st) as (_ & _ & Hsub).
  rewrite Hrun in Hsub. now apply Hsub.
Qed.

(** When the deletion loop runs to its end, the paths it went through are
    gone, and it has written one line for each. *)
Lemma for_each_remove_gone e l : forall st st',
  for_each (remove_entry e) l st = (Ret tt, st') ->
  forall k, k ∈ l -> dst_tree st' !! k = None.
Proof.
  induction l as [|x l IH]; intros st st' Hrun k Hk.
  - now apply elem_of_nil in Hk.
  - apply for_each_ret_cons in Hrun as (s1 & H1 & Hrest).
    destruct (decide (k ∈ l)) as [Hin|Hnin]; [exact (IH _ _ Hrest k Hin)|].
    apply elem_of_cons in Hk as [->|Hk]; [|contradiction].
    apply remove_entry_ret in H1 as [Hgone _].
    apply (same_but_dir_time_none (dst_tree s1 !! x)); [|exact Hgone].
    eapply for_each_remove_keeps; eauto.
Qed.

Lemma for_each_remove_out e l : NoDup l -> forall st st',
  for_each (remove_entry e) l st = (Ret tt, st') ->
  out st' = out st ++ map (del_line e (dst_tree st)) l.
Proof.
  induction 1 as [|x l Hx Hnd IH]; intros st st' Hrun.
  - injection Hrun as <-. now rewrite app_nil_r.
  - apply for_each_ret_cons in Hrun as (s1 & H1 & Hrest).
    rewrite (IH _ _ Hrest).
    destruct (remove_entry_frame e x st) as (Hsame & _ & _). rewrite H1 in Hsame.
    apply remove_entry_ret in H1 as [_ Hout].
    rewrite Hout, <- app_assoc. simpl. do 2 f_equal.
    apply map_ext_in. intros y Hy. apply del_line_same, Hsame.
    intros ->. apply Hx. now apply list_elem_of_In.
Qed.

(** What is still in the tree after a part of the deletion loop was there
    before and is not among the paths the loop went through. *)
Lemma for_each_remove_lookup e l st st1 k :
  for_each (remove_entry e) l st = (Ret tt, st1) ->
  is_Some (dst_tree st1 !! k) ->
  is_Some (dst_tree st !! k) /\ k ∉ l.
Proof.
  intros Hrun Hk. split; [eapply for_each_remove_sub; eauto|].
  intros Hin. rewrite (for_each_remove_gone e l st st1 Hrun k Hin) in Hk.
  now destruct Hk.
Qed.

Lemma mirror_run e st :
  mirror e st =
  (for_each (remove_entry e) (sorted_removals e (dst_tree st)) ;;;
   for_each (copy_entry e) (src_entries e)) st.
Proof. destruct st as [m o]. reflexivity. Qed.

Lemma to_remove_below e p k :
  src_closed e -> below p k ->
  to_remove e p = true -> isIgnored e (path_string k) = false ->
  to_remove e k = true.
Proof.
  intros Hsrc (s & Hs & ->) Hp Hk. unfold to_remove in *. rewrite Hk.
  destruct (isIgnored e (path_string p)); [discriminate|].
  destruct (src_exists e (p ++ s)) eqn:Hex; [|reflexivity].
  apply Hsrc in Hex. now rewrite Hex in Hp.
Qed.

(** When the loop reaches a listed path below which nothing is excluded,
    everything below it has been removed. *)
Lemma reached_empty e st l1 p l2 st1 :
  src_closed e ->
  sorted_removals e (dst_tree st) = l1 ++ p :: l2 ->
  for_each (remove_entry e) l1 st = (Ret tt, st1) ->
  nothing_excluded_below e (dst_tree st) p ->
  empty_dir (dst_tree st1) p.
Proof.
  intros Hsrc HL Hrun Hex k v Hk Hchild.
  apply child_of_below in Hchild.
  destruct (for_each_remove_lookup e l1 st st1 k Hrun) as [Hk0 Hnl]; [eauto|].
  apply Hnl.
  assert (Hp : p ∈ removal_list e (dst_tree st)).
  { rewrite <- sorted_removals_perm, HL. set_solver. }
  apply elem_of_removal_list in Hp as [_ Hp].
  assert (Hkl : k ∈ l1 ++ p :: l2).
  { rewrite <- HL, sorted_removals_perm. apply elem_of_removal_list.
    split; [exact Hk0|]. eapply to_remove_below; eauto. }
  eapply (OrderFacts.sorted_before (path_gt e)); [| |exact Hkl|].
  - rewrite <- HL. apply sorted_removals_descending.
  - apply path_gt_irrefl.
  - now apply path_gt_below.
Qed.

Lemma for_each_snoc {A} (body : A -> M unit) l x st s1 s2 :
  for_each body l st = (Ret tt, s1) ->
  body x s1 = (Ret tt, s2) ->
  for_each body (l ++ [x]) st = (Ret tt, s2).
Proof.
  revert st. induction l as [|y l IH]; intros st Hl Hx.
  - injection Hl as <-. cbn [app for_each]. unfold bind. now rewrite Hx.
  - cbn [app for_each] in *. unfold bind in *.
    destruct (body y st) as [[[]|w] s0]; [|discriminate].
    now apply IH.
Qed.

Lemma remove_entry_empty e p st :
  empty_dir (dst_tree st) p -> exists st', remove_entry e p st = (Ret tt, st').
Proof.
  intros Hempty. rewrite remove_entry_run.
  destruct (dst_tree st !! p) as [[s t|t]|]; eauto.
  rewrite bool_decide_eq_true_2 by exact Hempty. eauto.
Qed.

(** When the matcher excludes nothing below the listed paths, the deletion
    loop runs to its end. *)
Lemma deletion_pass_returns e st :
  src_closed e ->
  (forall p, p ∈ sorted_removals e (dst_tree st) ->
     nothing_excluded_below e (dst_tree st) p) ->
  exists st', for_each (remove_entry e) (sorted_removals e (dst_tree st)) st
              = (Ret tt, st').
Proof.
  intros Hsrc Hex.
  assert (Hgen : forall l2 l1 st1,
    sorted_removals e (dst_tree st) = l1 ++ l2 ->
    for_each (remove_entry e) l1 st = (Ret tt, st1) ->
    exists st', for_each (remove_entry e) (l1 ++ l2) st = (Ret tt, st')).
  { induction l2 as [|p l2 IH]; intros l1 st1 HL Hrun.
    - rewrite app_nil_r. eauto.
    - assert (Hp : p ∈ sorted_removals e (dst_tree st)).
      { rewrite HL. apply elem_of_app. right. now left. }
      destruct (remove_entry_empty e p st1) as [s2 Hs2].
      { eapply reached_empty; eauto. }
      replace (l1 ++ p :: l2) with ((l1 ++ [p]) ++ l2) by now rewrite <- app_assoc.
      apply (IH (l1 ++ [p]) s2).
      + now rewrite <- app_assoc.
      + eapply for_each_snoc; eauto. }
  destruct (Hgen (sorted_removals e (dst_tree st)) [] st eq_refl eq_refl)
    as [st' Hst'].
  now exists st'.
Qed.

(** A listed path stands after every listed path below it. *)
Lemma listed_below_first e m p k :
  p ∈ sorted_removals e m -> k ∈ sorted_removals e m -> below p k ->
  exists l1 l2 l3, sorted_removals e m = l1 ++ k :: l2 ++ p :: l3.
Proof.
  intros Hp Hk Hb.
  destruct (list_elem_of_split _ _ Hp) as (a & b & Hab).
  assert (Hka : k ∈ a).
  { eapply (OrderFacts.sorted_before (path_gt e)).
    - rewrite <- Hab. apply sorted_removals_descending.
    - apply path_gt_irrefl.
    - now rewrite <- Hab.
    - now apply path_gt_below. }
  destruct (list_elem_of_split _ _ Hka) as (l1 & l2 & ->).
  exists l1, l2, b. now rewrite Hab, <- app_assoc.
Qed.

(** *** What the matcher excludes is left alone *)

Lemma ignored_not_listed e m rel :
  isIgnored e (path_string rel) = true -> rel ∉ sorted_removals e m.
Proof.
  intros Hign Hin. rewrite sorted_removals_perm in Hin.
  apply elem_of_removal_list in Hin as [_ Hr].
  unfold to_remove in Hr. now rewrite Hign in Hr.
Qed.

Lemma ignored_not_copied e rel n st :
  isIgnored e (path_string rel) = true -> copy_entry e (rel, n) st = (Ret tt, st).
Proof. intros Hign. unfold copy_entry. now rewrite Hign. Qed.


(** *** What a step of the copy loop changes *)

Definition same_kind (a b : node) : Prop :=
  match a, b with
  | File _ _, File _ _ | Dir _, Dir _ => True
  | _, _ => False
  end.

Lemma same_kind_refl v : same_kind v v.
Proof. now destruct v. Qed.

Lemma same_kind_trans a b c : same_kind a b -> same_kind b c -> same_kind a c.
Proof. now destruct a, b, c. Qed.

Lemma same_but_dir_time_kind v o :
  same_but_dir_time (Some v) o -> exists v', o = Some v' /\ same_kind v v'.
Proof.
  intros [->|(t & t' & [= ->] & ->)].
  - exists v. split; [reflexivity|apply same_kind_refl].
  - eexists. split; [reflexivity|exact I].
Qed.

(** The path of a source file that is not excluded. *)
Definition copied_file (e : env) (l : list (path * node)) (k : path) : Prop :=
  isIgnored e (path_string k) = false /\
  exists ssize smtime, (k, File ssize smtime) ∈ l.

Lemma create_directories_same e p st k :
  is_Some (dst_tree st !! k) ->
  same_but_dir_time (dst_tree st !! k)
    (dst_tree (create_directories e p st).2 !! k).
Proof.
  intros Hk. destruct st as [m o]. rewrite create_directories_run.
  destruct (mkdirs e [] p m) as [m1|] eqn:Hm; simpl; [|now left].
  eapply mkdirs_same; eauto.
Qed.

(** [syncFile] and the time stamp call keep what is at other paths, but
    for the time of the directory a new file is created in, and keep the
    kind of what is at the path itself. *)
Lemma sync_and_stamp_effect e k ssize smtime m o x v :
  m !! x = Some v ->
  let r := (syncFile e k ssize smtime ;;; set_last_write_time e k smtime)%run
             (State m o) in
  (exists v', dst_tree r.2 !! x = Some v' /\ same_kind v v') /\
  (x <> k -> same_but_dir_time (m !! x) (dst_tree r.2 !! x)) /\
  (x <> k -> x <> parent_path k -> dst_tree r.2 !! x = m !! x).
Proof.
  intros Hx r. subst r. rewrite sync_and_stamp_run.
  assert (Hother : x <> k ->
    let r := match m !! k with
             | Some (File ds dt) =>
                 if smtime <=? dt
                 then (Ret tt, State (<[k:=File ds smtime]> m)
                                 (o ++ [COPY (abs_string (src_root e) k)
                                             (abs_string (dst_root e) k)]))
                 else after_move e k ssize smtime m o
             | Some (Dir _) =>
                 (Ret tt, State (<[k:=Dir smtime]> m)
                            (o ++ [ERROR (what e copy_file_not_regular k)]))
             | None => after_move e k ssize smtime m o
             end in
    same_but_dir_time (m !! x) (dst_tree r.2 !! x) /\
    (x <> parent_path k -> dst_tree r.2 !! x = m !! x)).
  { intros Hne. unfold after_move.
    destruct (m !! k) as [[ds dt|dt]|] eqn:Hk;
      [destruct (smtime <=? dt)| |];
      try (destruct (io e k) as [| |written]); simpl;
      rewrite ?lookup_insert_ne by congruence;
      try (split; [now left|reflexivity]);
      (split; [now apply lookup_opened_ne|intros Hnp; now apply lookup_opened_other]). }
  destruct (decide (x = k)) as [->|Hne].
  - split; [|split; [congruence|congruence]].
    rewrite Hx. unfold after_move. rewrite Hx.
    destruct v as [ds dt|dt]; [destruct (smtime <=? dt)|]; simpl;
      try (destruct (io e k) as [| |written]; simpl);
      rewrite lookup_insert_eq; eexists; (split; [reflexivity|exact I]).
  - destruct (Hother Hne) as [Hsame Hsame']. split; [|split; auto].
    rewrite Hx in Hsame. now apply same_but_dir_time_kind.
Qed.

(** One step of the copy loop, however it ends, removes nothing and keeps
    the kind of what is there.  It changes an existing entry only when it
    is the destination of the (not excluded) source file at hand, or, in
    its time, when it is a directory on the way to the path of the step. *)
Lemma copy_entry_effect e k n st x v :
  dst_tree st !! x = Some v ->
  let r := copy_entry e (k, n) st in
  (exists v', dst_tree r.2 !! x = Some v' /\ same_kind v v') /\
  (same_but_dir_time (Some v) (dst_tree r.2 !! x) \/ copied_file e [(k, n)] x) /\
  (~ x `prefix_of` k -> dst_tree r.2 !! x = Some v).
Proof.
  intros Hx r. subst r.
  assert (Hsame : (exists v', dst_tree st !! x = Some v' /\ same_kind v v') /\
                  (same_but_dir_time (Some v) (dst_tree st !! x) \/
                   copied_file e [(k, n)] x) /\
                  (~ x `prefix_of` k -> dst_tree st !! x = Some v)).
  { rewrite Hx. split; [exists v; split; [reflexivity|apply same_kind_refl]|].
    split; [left; now left|reflexivity]. }
  destruct (isIgnored e (path_string k)) eqn:Hi.
  { rewrite ignored_not_copied by exact Hi. exact Hsame. }
  destruct st as [m o]. simpl in Hx, Hsame. destruct n as [ssize smtime|t].
  - rewrite (copy_entry_file_run _ _ _ _ _ Hi), needs_copy_run.
    assert (Hcopy :
      let r := match create_directories e (parent_path k) (State m o) with
               | (Ret _, st1) =>
                   (syncFile e k ssize smtime ;;; set_last_write_time e k smtime)%run st1
               | (Throw what, st1) => (Throw what, st1)
               end in
      (exists v', dst_tree r.2 !! x = Some v' /\ same_kind v v') /\
      (same_but_dir_time (Some v) (dst_tree r.2 !! x) \/
       copied_file e [(k, File ssize smtime)] x) /\
      (~ x `prefix_of` k -> dst_tree r.2 !! x = Some v)).
    { rewrite create_directories_run.
      destruct (mkdirs e [] (parent_path k) m) as [m1|] eqn:Hmk; [|exact Hsame].
      assert (Hx1 : same_but_dir_time (Some v) (m1 !! x)).
      { rewrite <- Hx. eapply mkdirs_same; [exact Hmk|]. rewrite Hx. eauto. }
      destruct (same_but_dir_time_kind _ _ Hx1) as (v1 & Hv1 & Hkind1).
      destruct (sync_and_stamp_effect e k ssize smtime m1 o x v1 Hv1)
        as ((v2 & Hv2 & Hkind2) & Hne & Hother).
      split; [exists v2; split; [exact Hv2|eapply same_kind_trans; eauto]|]. split.
      - destruct (decide (x = k)) as [->|Hxk].
        + right. split; [exact Hi|]. exists ssize, smtime. now left.
        + left. eapply same_but_dir_time_trans; [exact Hx1|]. now apply Hne.
      - intros Hnpre. rewrite Hother.
        + rewrite <- Hx. apply (mkdirs_outside e _ [] m m1 x Hmk).
          intros q Hq Heq. simpl in Heq. subst q. apply Hnpre.
          etransitivity; [exact Hq|apply parent_prefix].
        + intros ->. now apply Hnpre.
        + intros ->. apply Hnpre, parent_prefix. }
    simpl. destruct (m !! k) as [[ds dt|dt]|]; [| |exact Hcopy].
    + destruct (negb (smtime =? dt) || negb (ssize =? ds)); [exact Hcopy|exact Hsame].
    + destruct (negb (smtime =? dt)); [exact Hcopy|exact Hsame].
  - unfold copy_entry. rewrite Hi, create_directories_run.
    destruct (mkdirs e [] k m) as [m1|] eqn:Hmk; [|exact Hsame]. simpl.
    assert (Hx1 : same_but_dir_time (Some v) (m1 !! x)).
    { rewrite <- Hx. eapply mkdirs_same; [exact Hmk|]. rewrite Hx. eauto. }
    split; [now apply same_but_dir_time_kind|]. split; [now left|].
    intros Hnpre. rewrite <- Hx. apply (mkdirs_outside e _ [] m m1 x Hmk).
    intros q Hq Heq. simpl in Heq. subst q. now apply Hnpre.
Qed.

Lemma copied_file_cons e ent l x :
  copied_file e [ent] x \/ copied_file e l x -> copied_file e (ent :: l) x.
Proof.
  intros [(Hi & s & t & Hin)|(Hi & s & t & Hin)]; (split; [exact Hi|]); exists s, t.
  - apply list_elem_of_singleton in Hin. rewrite Hin. now left.
  - now right.
Qed.

Lemma for_each_copy_effect e l : forall st x v,
  dst_tree st !! x = Some v ->
  let r := for_each (copy_entry e) l st in
  (exists v', dst_tree r.2 !! x = Some v' /\ same_kind v v') /\
  (same_but_dir_time (Some v) (dst_tree r.2 !! x) \/ copied_file e l x) /\
  ((forall k n, (k, n) ∈ l -> ~ x `prefix_of` k) -> dst_tree r.2 !! x = Some v).
Proof.
  induction l as [|[k n] l IH]; intros st x v Hx r; subst r.
  - simpl. rewrite Hx. split; [exists v; split; [reflexivity|apply same_kind_refl]|].
    split; [left; now left|reflexivity].
  - destruct (copy_entry_effect e k n st x v Hx) as ((v1 & Hv1 & Hk1) & Hch & Hout).
    rewrite for_each_cons_run.
    destruct (copy_entry e (k, n) st) as [[[]|w] s1]; cbn [fst snd] in *.
    + destruct (IH s1 x v1 Hv1) as ((v2 & Hv2 & Hk2) & Hch2 & _).
      split; [exists v2; split; [exact Hv2|eapply same_kind_trans; eauto]|]. split.
      * destruct Hch as [Hch|Hch]; [|right; apply copied_file_cons; now left].
        destruct Hch2 as [Hch2|Hch2]; [|right; apply copied_file_cons; now right].
        left. rewrite Hv1 in Hch.
        eapply same_but_dir_time_trans; [exact Hch|exact Hch2].
      * intros Hnpre.
        assert (H1 : dst_tree s1 !! x = Some v) by (apply Hout, (Hnpre k n); now left).
        destruct (IH s1 x v H1) as (_ & _ & Hrest). apply Hrest.
        intros k' n' Hin. apply (Hnpre k' n'). now right.
    + split; [exists v1; auto|]. split.
      * destruct Hch as [Hch|Hch]; [now left|right; apply copied_file_cons; now left].
      * intros Hnpre. apply Hout, (Hnpre k n). now left.
Qed.

(** *** What the matcher excludes is left alone *)

Lemma copy_entry_keeps e k n st rel v :
  isIgnored e (path_string rel) = true ->
  dst_tree st !! rel = Some v ->
  same_but_dir_time (Some v) (dst_tree (copy_entry e (k, n) st).2 !! rel).
Proof.
  intros Hign Hrel.
  destruct (copy_entry_effect e k n st rel v Hrel) as (_ & [H|[Hi _]] & _);
    [exact H|congruence].
Qed.

Lemma for_each_copy_keeps e l st rel v :
  isIgnored e (path_string rel) = true ->
  dst_tree st !! rel = Some v ->
  same_but_dir_time (Some v) (dst_tree (for_each (copy_entry e) l st).2 !! rel).
Proof.
  intros Hign Hrel.
  destruct (for_each_copy_effect e l st rel v Hrel) as (_ & [H|[Hi _]] & _);
    [exact H|congruence].
Qed.

(** Whatever [mirror] does and however it ends, a destination entry whose
    path [isIgnored] accepts is still there afterwards: a file as it was, a
    directory with at most another time. *)
Lemma ignored_entry_untouched e st rel v :
  isIgnored e (path_string rel) = true ->
  dst_tree st !! rel = Some v ->
  same_but_dir_time (Some v) (dst_tree (mirror e st).2 !! rel).
Proof.
  intros Hign Hrel. rewrite mirror_run. unfold bind.
  destruct (for_each (remove_entry e) (sorted_removals e (dst_tree st)) st)
    as [[[]|w] st1] eqn:Hdel;
    pose proof (for_each_remove_keeps e _ _ _ _ rel Hdel
                  (ignored_not_listed e _ rel Hign)) as Hkept;
    rewrite Hrel in Hkept.
  - destruct (same_but_dir_time_kind _ _ Hkept) as (v1 & Hv1 & _).
    eapply same_but_dir_time_trans; [exact Hkept|]. rewrite Hv1.
    now apply for_each_copy_keeps.
  - exact Hkept.
Qed.

(** *** What the copy loop creates *)

(** One step of the copy loop creates entries only at the path of its
    (not excluded) source entry and at the directories leading to it. *)
Lemma copy_entry_new e k n st x :
  dst_tree st !! x = None -> is_Some (dst_tree (copy_entry e (k, n) st).2 !! x) ->
  isIgnored e (path_string k) = false /\ x `prefix_of` k.
Proof.
  intros Hx Hx'.
  destruct (isIgnored e (path_string k)) eqn:Hi.
  { rewrite ignored_not_copied in Hx' by exact Hi. cbn [snd] in Hx'.
    rewrite Hx in Hx'. now destruct Hx'. }
  split; [reflexivity|]. destruct st as [m o]. simpl in Hx.
  assert (Hnot : ~ is_Some (m !! x)) by (rewrite Hx; now intros []).
  destruct n as [ssize smtime|t].
  - rewrite (copy_entry_file_run _ _ _ _ _ Hi), needs_copy_run in Hx'.
    assert (Hcopy :
      is_Some (dst_tree (match create_directories e (parent_path k) (State m o) with
               | (Ret _, st1) =>
                   (syncFile e k ssize smtime ;;; set_last_write_time e k smtime)%run st1
               | (Throw what, st1) => (Throw what, st1)
               end).2 !! x) -> x `prefix_of` k).
    { rewrite create_directories_run.
      destruct (mkdirs e [] (parent_path k) m) as [m1|] eqn:Hmk; [|contradiction].
      destruct (decide (x = k)) as [->|Hne]; [reflexivity|]. intros Hs.
      assert (Hs1 : is_Some (m1 !! x)).
      { destruct (m1 !! x) as [v1|] eqn:H1; [eauto|]. exfalso.
        revert Hs. rewrite sync_and_stamp_run. unfold after_move.
        destruct (m1 !! k) as [[ds dt|dt]|];
          [destruct (smtime <=? dt)| |];
          try (destruct (io e k) as [| |written]); simpl;
          rewrite ?lookup_insert_ne by congruence;
          rewrite ?(proj1 (same_but_dir_time_none _ _
                             (lookup_opened_ne e k _ m1 x Hne)) H1), ?H1;
          now intros []. }
      destruct (mkdirs_new _ _ _ _ _ _ Hmk Hx Hs1) as (q & _ & Hpre & -> & _).
      simpl. etransitivity; [exact Hpre|apply parent_prefix]. }
    simpl in Hx'. destruct (m !! k) as [[ds dt|dt]|]; [| |now apply Hcopy].
    + destruct (negb (smtime =? dt) || negb (ssize =? ds));
        [now apply Hcopy|contradiction].
    + destruct (negb (smtime =? dt)); [now apply Hcopy|contradiction].
  - unfold copy_entry in Hx'. rewrite Hi, create_directories_run in Hx'.
    destruct (mkdirs e [] k m) as [m1|] eqn:Hmk; [|contradiction].
    destruct (mkdirs_new _ _ _ _ _ _ Hmk Hx Hx') as (q & _ & Hpre & -> & _).
    exact Hpre.
Qed.

Lemma for_each_copy_new e l : forall st x,
  dst_tree st !! x = None ->
  is_Some (dst_tree (for_each (copy_entry e) l st).2 !! x) ->
  exists k n, (k, n) ∈ l /\ isIgnored e (path_string k) = false /\ x `prefix_of` k.
Proof.
  induction l as [|[k n] l IH]; intros st x Hx Hx'.
  - simpl in Hx'. rewrite Hx in Hx'. now destruct Hx'.
  - pose proof (copy_entry_new e k n st x Hx) as Hstep.
    rewrite for_each_cons_run in Hx'.
    destruct (copy_entry e (k, n) st) as [[[]|w] s1]; cbn [fst snd] in *.
    + destruct (dst_tree s1 !! x) as [v|] eqn:H1.
      * destruct Hstep as [Hi Hpre]; [eauto|]. exists k, n. split; [now left|auto].
      * destruct (IH s1 x H1 Hx') as (k' & n' & Hin & H). exists k', n'.
        split; [now right|exact H].
    + destruct (Hstep Hx') as [Hi Hpre]. exists k, n. split; [now left|auto].
Qed.

(** *** A directory entry of the source *)

Lemma copy_entry_dir_run e k t m o :
  isIgnored e (path_string k) = false ->
  copy_entry e (k, Dir t) (State m o) =
  match mkdirs e [] k m with
  | Some m1 => (Ret tt, State m1 o)
  | None => (Throw (what e create_directories_blocked k), State m o)
  end.
Proof. intros Hi. unfold copy_entry. rewrite Hi. apply create_directories_run. Qed.

(** *** A destination that is in sync *)

(** Nothing in the tree would go on the removal list. *)
Definition nothing_to_remove (e : env) (m : gmap path node) : Prop :=
  forall k, is_Some (m !! k) -> to_remove e k = false.

(** The directories among the entries [l] that the matcher lets through
    exist in the tree, with the directories above them. *)
Definition dirs_present (e : env) (l : list (path * node)) (m : gmap path node) : Prop :=
  forall k t, (k, Dir t) ∈ l -> isIgnored e (path_string k) = false ->
  forall q, q <> [] -> q `prefix_of` k -> exists t', m !! q = Some (Dir t').

(** The files among the entries [l] that the matcher lets through are in the
    tree with the size and time of the source. *)
Definition files_in_sync (e : env) (l : list (path * node)) (m : gmap path node) : Prop :=
  forall k ssize smtime, (k, File ssize smtime) ∈ l ->
  isIgnored e (path_string k) = false -> m !! k = Some (File ssize smtime).

Definition settled (e : env) (m : gmap path node) : Prop :=
  nothing_to_remove e m /\
  dirs_present e (src_entries e) m /\
  files_in_sync e (src_entries e) m.

Lemma removal_list_nil e m : nothing_to_remove e m -> removal_list e m = [].
Proof.
  intros H. apply elem_of_nil_inv. intros k Hk.
  apply elem_of_removal_list in Hk as [Hsome Hr].
  apply H in Hsome. congruence.
Qed.

Lemma copy_entry_settled e m o k n :
  settled e m -> (k, n) ∈ src_entries e ->
  copy_entry e (k, n) (State m o) = (Ret tt, State m o).
Proof.
  intros (_ & Hdirs & Hfiles) Hin.
  destruct (isIgnored e (path_string k)) eqn:Hign.
  { now apply ignored_not_copied. }
  destruct n as [ssize smtime|t].
  - apply copy_entry_in_sync; [exact Hign|]. simpl. eapply Hfiles; eauto.
  - rewrite copy_entry_dir_run by exact Hign.
    rewrite mkdirs_noop; [reflexivity|].
    intros q Hq Hpre. simpl. eapply Hdirs; eauto.
Qed.

Lemma for_each_copy_settled e m o l :
  settled e m -> l ⊆ src_entries e ->
  for_each (copy_entry e) l (State m o) = (Ret tt, State m o).
Proof.
  intros Hs. induction l as [|[k n] l IH]; intros Hl; [reflexivity|].
  cbn [for_each]. unfold bind.
  rewrite copy_entry_settled; [|exact Hs|apply Hl; left].
  apply IH. intros x Hx. apply Hl. now right.
Qed.

(** On a destination that is in sync [mirror] changes nothing and writes
    nothing. *)
Lemma mirror_settled e m o :
  settled e m -> mirror e (State m o) = (Ret tt, State m o).
Proof.
  intros Hs. rewrite mirror_run. simpl.
  unfold sorted_removals. rewrite removal_list_nil by apply Hs. simpl.
  unfold bind, ret. now apply for_each_copy_settled.
Qed.

(** *** The first run brings the destination in sync *)

(** The source tree is a tree: no path is listed twice, the directories
    leading to an entry are listed, and nothing lies below a file. *)
Definition src_wf (e : env) : Prop :=
  NoDup (src_entries e).*1 /\
  src_closed e /\
  (forall k s t k', (k, File s t) ∈ src_entries e -> k' ∈ (src_entries e).*1 ->
     ~ below k k').

(** The destination of a source file is absent, older, or already equal in
    size and time. *)
Definition file_ready (m : gmap path node) (k : path) (ssize smtime : Z) : Prop :=
  m !! k = None \/
  exists ds dt, m !! k = Some (File ds dt) /\
                (dt < smtime \/ (ds = ssize /\ dt = smtime)).

(** The files among [l] that the matcher lets through can be copied, and
    their destinations are ready. *)
Definition files_ready (e : env) (l : list (path * node)) (m : gmap path node) : Prop :=
  forall k ssize smtime, (k, File ssize smtime) ∈ l ->
  isIgnored e (path_string k) = false ->
  io e k = copies /\ file_ready m k ssize smtime.

Lemma src_exists_listed e k : k ∈ (src_entries e).*1 -> src_exists e k = true.
Proof.
  intros Hk. unfold src_exists. destruct k; [reflexivity|].
  now rewrite bool_decide_eq_true_2.
Qed.

Lemma to_remove_listed e k : k ∈ (src_entries e).*1 -> to_remove e k = false.
Proof.
  intros Hk. unfold to_remove. rewrite (src_exists_listed e k Hk).
  now destruct (isIgnored e (path_string k)).
Qed.

Lemma to_remove_prefix e q k :
  src_closed e -> q `prefix_of` k -> k ∈ (src_entries e).*1 ->
  to_remove e q = false.
Proof.
  intros Hsrc [s ->] Hk. apply src_exists_listed, Hsrc in Hk.
  unfold to_remove. rewrite Hk. now destruct (isIgnored e (path_string q)).
Qed.

(** Two trees with the same entries, but for the times of directories. *)
Definition same_tree (m m' : gmap path node) : Prop :=
  forall k, same_but_dir_time (m !! k) (m' !! k).

Lemma touch_dir_same_tree t p m : same_tree m (touch_dir t p m).
Proof. intros k. apply touch_dir_same. Qed.

Lemma same_tree_refl m : same_tree m m.
Proof. intros k. apply same_but_dir_time_refl. Qed.

(** The four parts of the invariant of the copy loop do not look at the
    times of directories. *)
Lemma same_tree_nothing_to_remove e m m' :
  same_tree m m' -> nothing_to_remove e m -> nothing_to_remove e m'.
Proof.
  intros Hs Hnr x Hx. apply Hnr. now apply (same_but_dir_time_some _ _ (Hs x)).
Qed.

Lemma same_tree_dirs_present e l m m' :
  same_tree m m' -> dirs_present e l m -> dirs_present e l m'.
Proof.
  intros Hs Hd k t Hin Hign q Hq Hpre.
  apply (same_but_dir_time_dir _ _ (Hs q)). eapply Hd; eauto.
Qed.

Lemma same_tree_files_in_sync e l m m' :
  same_tree m m' -> files_in_sync e l m -> files_in_sync e l m'.
Proof.
  intros Hs Hf k s t Hin Hign.
  apply (same_but_dir_time_file _ _ s t (Hs k)). eapply Hf; eauto.
Qed.

Lemma same_but_dir_time_file_ready m m' k ssize smtime :
  same_but_dir_time (m !! k) (m' !! k) ->
  file_ready m k ssize smtime -> file_ready m' k ssize smtime.
Proof.
  intros Hs [Hnone|(ds & dt & Hfile & Hok)].
  - left. now apply (same_but_dir_time_none _ _ Hs).
  - right. exists ds, dt. split; [|exact Hok].
    now apply (same_but_dir_time_file _ _ ds dt Hs).
Qed.

Lemma same_tree_files_ready e l m m' :
  same_tree m m' -> files_ready e l m -> files_ready e l m'.
Proof.
  intros Hs Hf k s t Hin Hign. destruct (Hf k s t Hin Hign) as [Hio Hr].
  split; [exact Hio|]. eapply same_but_dir_time_file_ready; eauto.
Qed.

(** What [create_directories] on a path leading to a source entry keeps. *)
Lemma grown_nothing_to_remove e p k m m1 :
  src_closed e -> mkdirs e [] p m = Some m1 ->
  p `prefix_of` k -> k ∈ (src_entries e).*1 ->
  nothing_to_remove e m -> nothing_to_remove e m1.
Proof.
  intros Hsrc Hm Hp Hk Hnr x Hx.
  destruct (decide (x `prefix_of` p)) as [Hxp|Hxp].
  - eapply to_remove_prefix; [exact Hsrc| |exact Hk]. now transitivity p.
  - apply Hnr. rewrite <- (mkdirs_outside e p [] m m1 x Hm); [exact Hx|].
    intros q Hq Heq. simpl in Heq. subst q. now apply Hxp.
Qed.

Lemma grown_dirs_present e l p m m1 :
  mkdirs e [] p m = Some m1 -> dirs_present e l m -> dirs_present e l m1.
Proof.
  intros Hm Hd k t Hin Hign q Hq Hpre.
  destruct (Hd k t Hin Hign q Hq Hpre) as [t' Ht'].
  eapply mkdirs_keeps_dir; eauto.
Qed.

Lemma grown_files_in_sync e l p m m1 :
  mkdirs e [] p m = Some m1 -> files_in_sync e l m -> files_in_sync e l m1.
Proof.
  intros Hm Hf k s t Hin Hign. eapply mkdirs_keeps_file; eauto.
Qed.

Lemma grown_files_ready e l p m m1 :
  mkdirs e [] p m = Some m1 ->
  (forall k s t, (k, File s t) ∈ l -> ~ k `prefix_of` p) ->
  files_ready e l m -> files_ready e l m1.
Proof.
  intros Hm Hout Hf k s t Hin Hign.
  destruct (Hf k s t Hin Hign) as [Hio Hr]. split; [exact Hio|].
  unfold file_ready in *.
  rewrite (mkdirs_outside e p [] m m1 k Hm); [exact Hr|].
  intros q Hq Heq. simpl in Heq. subst q. now apply (Hout _ _ _ Hin).
Qed.

(** What writing the file [k] keeps. *)
Lemma put_nothing_to_remove e k v m :
  k ∈ (src_entries e).*1 ->
  nothing_to_remove e m -> nothing_to_remove e (<[k := v]> m).
Proof.
  intros Hk Hnr x Hx. destruct (decide (x = k)) as [->|Hne].
  - now apply to_remove_listed.
  - rewrite lookup_insert_ne in Hx by congruence. now apply Hnr.
Qed.

Lemma put_dirs_present e l k v m :
  (forall d t, (d, Dir t) ∈ l -> ~ k `prefix_of` d) ->
  dirs_present e l m -> dirs_present e l (<[k := v]> m).
Proof.
  intros Hout Hd d t Hin Hign q Hq Hpre.
  rewrite lookup_insert_ne; [now apply (Hd d t)|].
  intros ->. now apply (Hout d t).
Qed.

Lemma put_files_in_sync e l k v m :
  k ∉ l.*1 -> files_in_sync e l m -> files_in_sync e l (<[k := v]> m).
Proof.
  intros Hk Hf x s t Hin Hign.
  rewrite lookup_insert_ne; [now apply Hf|].
  intros ->. apply Hk. now apply (list_elem_of_fmap_2 fst) in Hin.
Qed.

Lemma put_files_ready e l k v m :
  k ∉ l.*1 -> files_ready e l m -> files_ready e l (<[k := v]> m).
Proof.
  intros Hk Hf x s t Hin Hign.
  destruct (Hf x s t Hin Hign) as [Hio Hr]. split; [exact Hio|].
  unfold file_ready in *. rewrite lookup_insert_ne; [exact Hr|].
  intros ->. apply Hk. now apply (list_elem_of_fmap_2 fst) in Hin.
Qed.

(** A returning copy step on a ready file either found it in sync or wrote
    it below its (possibly new) parent directory, whose time the new file
    may have changed. *)
Lemma copy_entry_ready e k ssize smtime m o m' o' :
  isIgnored e (path_string k) = false ->
  io e k = copies ->
  file_ready m k ssize smtime ->
  copy_entry e (k, File ssize smtime) (State m o) = (Ret tt, State m' o') ->
  (m' = m /\ m !! k = Some (File ssize smtime)) \/
  (exists m1 m2, mkdirs e [] (parent_path k) m = Some m1 /\ same_tree m1 m2 /\
                 m' = <[k := File ssize smtime]> m2).
Proof.
  intros Hign Hio Hready Hrun.
  destruct (decide (m !! k = Some (File ssize smtime))) as [Hsync|Hstale].
  { left. rewrite copy_entry_in_sync in Hrun by assumption.
    split; [congruence|exact Hsync]. }
  right. rewrite copy_entry_file_run, needs_copy_run in Hrun by exact Hign.
  simpl in Hrun.
  assert (Hstale' : match m !! k with
                    | Some (File ds dt) =>
                        negb (smtime =? dt) || negb (ssize =? ds) = true /\
                        (smtime <=? dt) = false
                    | Some (Dir _) => False
                    | None => True
                    end).
  { destruct Hready as [H|(ds & dt & H & [Hlt|[Hs Ht]])]; rewrite H in *.
    - exact I.
    - split; [|lia]. destruct (Z.eqb_spec smtime dt); [lia|reflexivity].
    - subst. now destruct Hstale. }
  assert (Hmoved : forall m1,
            after_move e k ssize smtime m1 o = (Ret tt, State m' o') ->
            exists m2, same_tree m1 m2 /\ m' = <[k := File ssize smtime]> m2).
  { intros m1. unfold after_move, opened. rewrite Hio.
    destruct (m1 !! k); intros [= <- _]; rewrite insert_insert_eq.
    - exists m1. split; [apply same_tree_refl|reflexivity].
    - eexists. split; [apply touch_dir_same_tree|reflexivity]. }
  rewrite create_directories_run in Hrun.
  destruct (m !! k) as [[ds dt|dt]|] eqn:Hl; [| contradiction |].
  - destruct Hstale' as [Hne Hle]. rewrite Hne in Hrun.
    destruct (mkdirs e [] (parent_path k) m) as [m1|] eqn:Hm1; [|discriminate].
    rewrite sync_and_stamp_run, (mkdirs_parent_keeps e k m m1 Hm1), Hl, Hle in Hrun.
    destruct (Hmoved m1 Hrun) as (m2 & Hs & ->). exists m1, m2. auto.
  - destruct (mkdirs e [] (parent_path k) m) as [m1|] eqn:Hm1; [|discriminate].
    rewrite sync_and_stamp_run, (mkdirs_parent_keeps e k m m1 Hm1), Hl in Hrun.
    destruct (Hmoved m1 Hrun) as (m2 & Hs & ->). exists m1, m2. auto.
Qed.

(** One returning step of the copy loop carries the invariant from the
    entries handled so far to one entry more. *)
Lemma copy_step_invariant e done k n rest m o m' o' :
  src_wf e -> src_entries e = done ++ (k, n) :: rest ->
  nothing_to_remove e m -> dirs_present e done m -> files_in_sync e done m ->
  files_ready e ((k, n) :: rest) m ->
  copy_entry e (k, n) (State m o) = (Ret tt, State m' o') ->
  nothing_to_remove e m' /\
  dirs_present e (done ++ [(k, n)]) m' /\
  files_in_sync e (done ++ [(k, n)]) m' /\
  files_ready e rest m'.
Proof.
  intros (Hnodup & Hsrc & Hleaf) Hsplit Hnr Hdirs Hfiles Hready Hrun.
  assert (Hk : k ∈ (src_entries e).*1).
  { rewrite Hsplit, fmap_app, fmap_cons. apply elem_of_app. right. now left. }
  assert (Hin_done : forall x, x ∈ done -> x ∈ src_entries e).
  { intros x Hx. rewrite Hsplit. apply elem_of_app. now left. }
  assert (Hin_rest : forall x, x ∈ rest -> x ∈ src_entries e).
  { intros x Hx. rewrite Hsplit. apply elem_of_app. right. now right. }
  rewrite Hsplit, fmap_app, fmap_cons in Hnodup.
  apply NoDup_app in Hnodup as (_ & Hdisj & Hnd).
  apply NoDup_cons in Hnd as [Hk_rest _].
  assert (Hk_done : k ∉ done.*1) by (intros H; apply (Hdisj _ H); left).
  assert (Hready_rest : files_ready e rest m)
    by (intros x s t Hx; apply Hready; now right).
  (* a file of the source is a prefix of nothing else in the source *)
  assert (Hfile_prefix : forall x s t y, (x, File s t) ∈ src_entries e ->
            y ∈ (src_entries e).*1 -> x `prefix_of` y -> x = y).
  { intros x s t y Hx Hy Hpre.
    destruct (prefix_below _ _ Hpre) as [->|Hb]; [reflexivity|].
    now destruct (Hleaf x s t y Hx Hy). }
  assert (Hrest_out : forall p, p `prefix_of` k ->
            forall x s t, (x, File s t) ∈ rest -> ~ x `prefix_of` p).
  { intros p Hp x s t Hx Hpre. apply Hk_rest.
    rewrite <- (Hfile_prefix x s t k); [| |exact Hk|now transitivity p].
    - now apply (list_elem_of_fmap_2 fst) in Hx.
    - now apply Hin_rest. }
  assert (Hold_dirs : forall m2, dirs_present e done m2 ->
            (forall t0, n <> Dir t0) -> dirs_present e (done ++ [(k, n)]) m2).
  { intros m2 Hd Hn d t Hin. apply elem_of_app in Hin as [Hin|Hin].
    - exact (Hd d t Hin).
    - apply list_elem_of_singleton in Hin. injection Hin as _ Hnt.
      now destruct (Hn t). }
  destruct (isIgnored e (path_string k)) eqn:Hign.
  { rewrite ignored_not_copied in Hrun by exact Hign.
    injection Hrun as <- _.
    split; [assumption|split; [|split; [|assumption]]].
    - intros d t Hin Hd.
      apply elem_of_app in Hin as [Hin|Hin]; [exact (Hdirs d t Hin Hd)|].
      apply list_elem_of_singleton in Hin. injection Hin as -> _. congruence.
    - intros x s t Hin Hx.
      apply elem_of_app in Hin as [Hin|Hin]; [exact (Hfiles x s t Hin Hx)|].
      apply list_elem_of_singleton in Hin. injection Hin as -> _. congruence. }
  destruct n as [ssize smtime|t].
  - (* a file *)
    destruct (Hready k ssize smtime) as [Hio Hr]; [left|exact Hign|].
    assert (Hnew_files : forall m2, files_in_sync e done m2 ->
              m2 !! k = Some (File ssize smtime) ->
              files_in_sync e (done ++ [(k, File ssize smtime)]) m2).
    { intros m2 Hf Hm2 x s t Hin Hx.
      apply elem_of_app in Hin as [Hin|Hin]; [exact (Hf x s t Hin Hx)|].
      apply list_elem_of_singleton in Hin. now injection Hin as -> -> ->. }
    destruct (copy_entry_ready e k ssize smtime m o m' o' Hign Hio Hr Hrun)
      as [[-> Hsync]|(m1 & m2 & Hm1 & Hs & ->)].
    + split; [assumption|split; [|split; [|assumption]]].
      * apply Hold_dirs; [assumption|discriminate].
      * now apply Hnew_files.
    + split; [|split; [|split]].
      * apply put_nothing_to_remove; [exact Hk|].
        apply (same_tree_nothing_to_remove e m1 m2 Hs).
        eapply grown_nothing_to_remove; eauto using parent_prefix.
      * apply Hold_dirs; [|discriminate].
        apply put_dirs_present;
          [|apply (same_tree_dirs_present e _ m1 m2 Hs);
            eapply grown_dirs_present; eauto].
        intros d t Hd Hpre. apply Hk_done.
        rewrite (Hfile_prefix k ssize smtime d); [| | |exact Hpre].
        -- now apply (list_elem_of_fmap_2 fst) in Hd.
        -- rewrite Hsplit. apply elem_of_app. right. now left.
        -- apply (list_elem_of_fmap_2 fst _ (d, Dir t)), Hin_done, Hd.
      * apply Hnew_files; [|apply lookup_insert_eq].
        apply put_files_in_sync; [exact Hk_done|].
        apply (same_tree_files_in_sync e _ m1 m2 Hs).
        eapply grown_files_in_sync; eauto.
      * apply put_files_ready; [exact Hk_rest|].
        apply (same_tree_files_ready e _ m1 m2 Hs).
        eapply grown_files_ready; [exact Hm1| |exact Hready_rest].
        apply Hrest_out, parent_prefix.
  - (* a directory *)
    rewrite copy_entry_dir_run in Hrun by exact Hign.
    destruct (mkdirs e [] k m) as [m1|] eqn:Hm1; [|discriminate].
    injection Hrun as <- _. split; [|split; [|split]].
    + eapply grown_nothing_to_remove; eauto.
    + intros d t' Hin Hd q Hq Hpre.
      apply elem_of_app in Hin as [Hin|Hin].
      * eapply grown_dirs_present; eauto.
      * apply list_elem_of_singleton in Hin. injection Hin as -> _.
        apply (mkdirs_dirs e k [] m m1 q Hm1 Hq Hpre).
    + intros x s t' Hin Hx. apply elem_of_app in Hin as [Hin|Hin].
      * eapply grown_files_in_sync; eauto.
      * apply list_elem_of_singleton in Hin. discriminate.
    + eapply grown_files_ready; [exact Hm1| |exact Hready_rest].
      now apply Hrest_out.
Qed.

Lemma copy_loop_settles e :
  src_wf e ->
  forall rest done m o m' o',
    src_entries e = done ++ rest ->
    nothing_to_remove e m -> dirs_present e done m -> files_in_sync e done m ->
    files_ready e rest m ->
    for_each (copy_entry e) rest (State m o) = (Ret tt, State m' o') ->
    settled e m'.
Proof.
  intros Hwf rest.
  induction rest as [|[k n] rest IH];
    intros done m o m' o' Hsplit Hnr Hdirs Hfiles Hready Hrun.
  - injection Hrun as <- _. rewrite app_nil_r in Hsplit. subst done.
    now split; [|split].
  - apply for_each_ret_cons in Hrun as ([m1 o1] & Hstep & Hrun).
    destruct (copy_step_invariant e done k n rest m o m1 o1
                Hwf Hsplit Hnr Hdirs Hfiles Hready Hstep)
      as (Hnr1 & Hdirs1 & Hfiles1 & Hready1).
    apply (IH (done ++ [(k, n)]) m1 o1 m' o'); try assumption.
    now rewrite <- app_assoc.
Qed.

(** A first run that returns, on a well-formed source whose files can be
    copied onto absent, older or equal destinations, leaves the destination
    in sync. *)
Lemma first_run_settles e st st1 :
  src_wf e ->
  files_ready e (src_entries e) (dst_tree st) ->
  mirror e st = (Ret tt, st1) ->
  settled e (dst_tree st1).
Proof.
  intros Hwf Hready Hrun. rewrite mirror_run in Hrun. unfold bind in Hrun.
  destruct (for_each (remove_entry e) (sorted_removals e (dst_tree st)) st)
    as [[[]|w] [md od]] eqn:Hdel; [|discriminate].
  destruct st1 as [m1 o1].
  apply (copy_loop_settles e Hwf (src_entries e) [] md od m1 o1);
    try reflexivity; try exact Hrun.
  - intros x Hx.
    destruct (for_each_remove_lookup e _ _ _ x Hdel Hx) as [Hx0 Hnl].
    destruct (to_remove e x) eqn:Hr; [|reflexivity].
    destruct Hnl. rewrite sorted_removals_perm.
    apply elem_of_removal_list. eauto.
  - intros k t Hin. now apply elem_of_nil in Hin.
  - intros k s t Hin. now apply elem_of_nil in Hin.
  - intros k s t Hin Hign. destruct (Hready k s t Hin Hign) as [Hio Hr].
    split; [exact Hio|].
    apply (same_but_dir_time_file_ready (dst_tree st) md k s t); [|exact Hr].
    apply (for_each_remove_keeps e _ _ _ _ k Hdel).
    intros Hl. rewrite sorted_removals_perm in Hl.
    apply elem_of_removal_list in Hl as [_ Hl].
    rewrite to_remove_listed in Hl; [discriminate|].
    now apply (list_elem_of_fmap_2 fst) in Hin.
Qed.

(** Under the same conditions a second run changes nothing and writes
    nothing. *)
Lemma rerun_silent e st st1 o :
  src_wf e ->
  files_ready e (src_entries e) (dst_tree st) ->
  mirror e st = (Ret tt, st1) ->
  mirror e (State (dst_tree st1) o) = (Ret tt, State (dst_tree st1) o).
Proof.
  intros Hwf Hready Hrun. apply mirror_settled.
  eapply first_run_settles; eauto.
Qed.

(** The conditions of [rerun_silent] at work: an older destination file is
    replaced by the first run and left alone by the second. *)
Lemma older_destination_rerun :
  (mirror Examples.newer_source_env Examples.newer_source_state).1 = Ret tt /\
  out (mirror Examples.newer_source_env Examples.newer_source_state).2
    = [COPY "src/a.txt" "dst/a.txt"] /\
  forall o,
    mirror Examples.newer_source_env
      (State (dst_tree (mirror Examples.newer_source_env
                          Examples.newer_source_state).2) o)
    = (Ret tt,
       State (dst_tree (mirror Examples.newer_source_env
                          Examples.newer_source_state).2) o).
Proof.
  split; [reflexivity|]. split; [reflexivity|]. intros o.
  assert (Hone : forall x : list string * node,
            x ∈ src_entries Examples.newer_source_env ->
            x = (["a.txt"%string], File 1 9)).
  { intros x Hx. now apply list_elem_of_singleton in Hx. }
  apply (rerun_silent _ Examples.newer_source_state).
  - split; [|split].
    + apply NoDup_singleton.
    + intros [|x p] s Hex; [reflexivity|].
      unfold src_exists in Hex. simpl in Hex.
      apply bool_decide_eq_true_1, list_elem_of_singleton in Hex.
      injection Hex as -> Hps. apply app_eq_nil in Hps as [-> _]. reflexivity.
    + intros k s t k' Hk Hk' (suffix & Hne & ->).
      apply Hone in Hk. injection Hk as -> _ _.
      apply list_elem_of_singleton in Hk'. simpl in Hk'.
      injection Hk' as Hs. now destruct Hne.
  - intros k s t Hk _. apply Hone in Hk. injection Hk as -> -> ->.
    split; [reflexivity|]. right. exists 1, 3. split; [reflexivity|]. lia.
  - vm_compute. reflexivity.
Qed.


(** *** What the passes write *)

(** The lines of the deletion loop, of the copy loop, and of [mirror]. *)
Definition is_del_line (l : line) : Prop :=
  match l with
  | DEL_D _ | DEL_F _ => True
  | _ => False
  end.

Definition is_copy_line (l : line) : Prop :=
  match l with
  | COPY _ _ | ERROR _ => True
  | _ => False
  end.

Definition is_action (l : line) : Prop := is_del_line l \/ is_copy_line l.

(** [st'] has the output of [st] followed by lines that satisfy [P]. *)
Definition appends (P : line -> Prop) (st st' : state) : Prop :=
  exists l, out st' = out st ++ l /\ Forall P l.

Lemma appends_refl P st : appends P st st.
Proof. exists []. split; [now rewrite app_nil_r|constructor]. Qed.

Lemma appends_trans P s1 s2 s3 :
  appends P s1 s2 -> appends P s2 s3 -> appends P s1 s3.
Proof.
  intros (l1 & H1 & F1) (l2 & H2 & F2). exists (l1 ++ l2). split.
  - now rewrite H2, H1, <- app_assoc.
  - apply Forall_app; auto.
Qed.

Lemma appends_same_out P st st' : out st' = out st -> appends P st st'.
Proof. intros H. exists []. split; [now rewrite app_nil_r|constructor]. Qed.

Lemma appends_one (P : line -> Prop) st st' l :
  out st' = out st ++ [l] -> P l -> appends P st st'.
Proof. intros H Hl. exists [l]. split; [exact H|now constructor]. Qed.

Ltac solve_appends :=
  simpl;
  first [ apply appends_refl
        | apply appends_same_out; reflexivity
        | eapply appends_one; [reflexivity|exact I] ].

Lemma remove_entry_appends e k st : appends is_del_line st (remove_entry e k st).2.
Proof.
  rewrite remove_entry_run.
  destruct (dst_tree st !! k) as [[ds dt|dt]|]; try solve_appends.
  destruct (bool_decide _); solve_appends.
Qed.

Lemma copy_entry_appends e ent st : appends is_copy_line st (copy_entry e ent st).2.
Proof.
  destruct ent as [k n].
  destruct (isIgnored e (path_string k)) eqn:Hi.
  { rewrite ignored_not_copied by exact Hi. apply appends_refl. }
  destruct st as [m o]. destruct n as [ssize smtime|t].
  - rewrite (copy_entry_file_run _ _ _ _ _ Hi), needs_copy_run.
    assert (Hcopy : appends is_copy_line (State m o)
              (match create_directories e (parent_path k) (State m o) with
               | (Ret _, st1) =>
                   (syncFile e k ssize smtime ;;; set_last_write_time e k smtime)%run st1
               | (Throw what, st1) => (Throw what, st1)
               end).2).
    { rewrite create_directories_run.
      destruct (mkdirs e [] (parent_path k) m) as [m1|]; [|solve_appends].
      rewrite sync_and_stamp_run. unfold after_move.
      destruct (m1 !! k) as [[ds dt|dt]|]; [destruct (smtime <=? dt)| |];
        try (destruct (io e k) as [| |written]); solve_appends. }
    simpl. destruct (m !! k) as [[ds dt|dt]|]; [| |exact Hcopy].
    + destruct (negb (smtime =? dt) || negb (ssize =? ds)); [exact Hcopy|solve_appends].
    + destruct (negb (smtime =? dt)); [exact Hcopy|solve_appends].
  - rewrite copy_entry_dir_run by exact Hi.
    destruct (mkdirs e [] k m); solve_appends.
Qed.

Lemma for_each_appends {A} P (body : A -> M unit) l :
  (forall x st, appends P st (body x st).2) ->
  forall st, appends P st (for_each body l st).2.
Proof.
  intros Hbody. induction l as [|x l IH]; intros st; [apply appends_refl|].
  simpl. unfold bind. specialize (Hbody x st).
  destruct (body x st) as [[[]|w] s1]; [|exact Hbody].
  eapply appends_trans; [exact Hbody|apply IH].
Qed.

(** The log of [mirror]: the earlier output, then the lines of the
    deletion loop, then those of the copy loop. *)
Lemma mirror_log e st :
  exists dels copies,
    out (mirror e st).2 = out st ++ dels ++ copies /\
    Forall is_del_line dels /\ Forall is_copy_line copies.
Proof.
  rewrite mirror_run. unfold bind.
  destruct (for_each_appends is_del_line (remove_entry e)
              (sorted_removals e (dst_tree st)) (remove_entry_appends e) st)
    as (dels & Hdels & Fdels).
  destruct (for_each (remove_entry e) _ st) as [[[]|w] s1]; simpl in Hdels.
  - destruct (for_each_appends is_copy_line (copy_entry e) (src_entries e)
                (copy_entry_appends e) s1) as (copies & Hcopies & Fcopies).
    exists dels, copies. rewrite Hcopies, Hdels, <- app_assoc. auto.
  - exists dels, []. rewrite app_nil_r. simpl. auto.
Qed.

Lemma mirror_appends e st : appends is_action st (mirror e st).2.
Proof.
  destruct (mirror_log e st) as (dels & copies & Hout & Fd & Fc).
  exists (dels ++ copies). split; [exact Hout|].
  apply Forall_app. split; eapply Forall_impl; eauto; intros l Hl; [now left|now right].
Qed.

Lemma action_not_finished st st' :
  appends is_action st st' -> FINISHED ∉ out st -> FINISHED ∉ out st'.
Proof.
  intros (l & -> & Hl) Hno Hin. apply elem_of_app in Hin as [Hin|Hin]; [auto|].
  rewrite Forall_forall in Hl. now destruct (Hl _ Hin).
Qed.

(** *** The removal list *)

Lemma removal_list_NoDup e m : NoDup (removal_list e m).
Proof. apply NoDup_filter, NoDup_fst_map_to_list. Qed.

Lemma sorted_removals_NoDup e m : NoDup (sorted_removals e m).
Proof. rewrite sorted_removals_perm. apply removal_list_NoDup. Qed.

Lemma elem_of_sorted_removals e m k :
  k ∈ sorted_removals e m <->
  is_Some (m !! k) /\ isIgnored e (path_string k) = false /\ src_exists e k = false.
Proof.
  rewrite sorted_removals_perm, elem_of_removal_list. unfold to_remove.
  destruct (isIgnored e (path_string k)), (src_exists e k); simpl; intuition congruence.
Qed.

(** *** Checking a source listing *)

(** The prefixes of a path, the empty one and the path itself included. *)
Definition prefixes (k : path) : list path :=
  (fun n => take n k) <$> seq 0 (S (length k)).

Lemma elem_of_prefixes (q k : path) : q `prefix_of` k -> q ∈ prefixes k.
Proof.
  intros [s ->]. unfold prefixes. apply list_elem_of_fmap.
  exists (length q). split; [now rewrite take_app_length|].
  apply elem_of_seq. rewrite length_app. lia.
Qed.

(** [src_wf] as a test that can be run on a concrete listing. *)
Definition src_wf_check (e : env) : bool :=
  let keys := (src_entries e).*1 in
  bool_decide (NoDup keys) &&
  forallb (fun k => forallb (fun q => bool_decide (q = [] \/ q ∈ keys)) (prefixes k))
          keys &&
  forallb (fun ent =>
             match ent.2 with
             | File _ _ =>
                 forallb (fun k' => bool_decide (ent.1 `prefix_of` k' -> k' = ent.1)) keys
             | Dir _ => true
             end) (src_entries e).

Lemma src_wf_check_sound e : src_wf_check e = true -> src_wf e.
Proof.
  unfold src_wf_check. rewrite !andb_true_iff, !forallb_forall.
  intros [[Hnd Hclosed] Hfiles]. split; [|split].
  - now apply bool_decide_eq_true_1 in Hnd.
  - intros [|c p] s Hex; [reflexivity|].
    unfold src_exists in *. simpl in Hex. apply bool_decide_eq_true_1 in Hex.
    apply list_elem_of_In in Hex. specialize (Hclosed _ Hex).
    rewrite forallb_forall in Hclosed.
    assert (Hin : (c :: p) ∈ prefixes (c :: p ++ s)).
    { apply elem_of_prefixes. now exists s. }
    apply list_elem_of_In, Hclosed, bool_decide_eq_true_1 in Hin.
    destruct Hin as [Hnil|Hin]; [discriminate|]. now apply bool_decide_eq_true_2.
  - intros k s t k' Hk Hk' (suffix & Hne & ->).
    apply list_elem_of_In, Hfiles in Hk. simpl in Hk. rewrite forallb_forall in Hk.
    apply list_elem_of_In, Hk, bool_decide_eq_true_1 in Hk'.
    assert (Heq : (k ++ suffix)%list = (k ++ [])%list).
    { rewrite app_nil_r. apply Hk'. now exists suffix. }
    apply app_inv_head in Heq. contradiction.
Qed.

End SyncFacts.

(** * The claims *)

(** C1 (failing input).  With the single rule line [tmp], which has no
    leading [!], [isIgnored] answers [false] on [a/tmp/file.txt] and on
    [tmpfile.txt] although the pattern occurs in both: the loop sets the flag
    from [rule.first], which [addRule] filled with [neg]. *)
Theorem single_plain_rule_excludes_nothing :
  GitIgnore.make ["tmp"%string] = [(false, "tmp"%string)] /\
  GitIgnore.match_ "a/tmp/file.txt" "tmp" = true /\
  GitIgnore.match_ "tmpfile.txt" "tmp" = true /\
  GitIgnore.isIgnored (GitIgnore.make ["tmp"%string]) "a/tmp/file.txt" = false /\
  GitIgnore.isIgnored (GitIgnore.make ["tmp"%string]) "tmpfile.txt" = false.
Proof. repeat split; vm_compute; reflexivity. Qed.

(** C2 (failing input).  With the rule line [tmp] the destination-only file
    [tmp_old.txt] and the source file [tmpfile.txt] both contain the pattern
    of a rule that is neither negated nor overridden; [mirror] nevertheless
    deletes the first and copies the second, because [isIgnored] answers
    [false] for both. *)
Theorem plain_rule_protects_nothing :
  let r := Sync.mirror Examples.plain_rule_env Examples.plain_rule_state in
  GitIgnore.match_ "tmp_old.txt" "tmp" = true /\
  GitIgnore.match_ "tmpfile.txt" "tmp" = true /\
  r.1 = Run.Ret tt /\
  Run.out r.2 = [DEL_F "dst/tmp_old.txt"; COPY "src/tmpfile.txt" "dst/tmpfile.txt"] /\
  Run.dst_tree r.2 !! ["tmp_old.txt"%string] = None /\
  Run.dst_tree r.2 !! ["tmpfile.txt"%string] = Some (Fs.File 3 7).
Proof. repeat split; vm_compute; reflexivity. Qed.

(** C3 (failing input).  The destination [a.txt] is out of date by the
    test of [mirror] (its size and its time both differ from the source's)
    and the matcher does not exclude it, so the specification wants it
    copied.  The copy branch is taken and the [[COPY]] line is written, but
    the destination is newer than the source, so [copy_file] returns [false]
    and copies nothing: after the run the file still has its own size 2, not
    the source's size 1. *)
Theorem stale_destination_not_copied :
  let e := Examples.newer_destination_env in
  let st := Examples.newer_destination_state in
  let r := Sync.mirror e st in
  Sync.isIgnored e (Fs.path_string ["a.txt"%string]) = false /\
  Sync.src_entries e = [(["a.txt"%string], Fs.File 1 3)] /\
  SyncFacts.dst_mtime_differs (Run.dst_tree st) ["a.txt"%string] 3 /\
  SyncFacts.dst_size_differs (Run.dst_tree st) ["a.txt"%string] 1 /\
  Sync.copy_file e ["a.txt"%string] 1 3 st = (Run.Ret false, st) /\
  r.1 = Run.Ret tt /\
  Run.out r.2 = [COPY "src/a.txt" "dst/a.txt"] /\
  Run.dst_tree r.2 !! ["a.txt"%string] = Some (Fs.File 2 3).
Proof.
  refine (conj _ (conj _ (conj _ (conj _ (conj _ (conj _ (conj _ _))))))).
  - reflexivity.
  - reflexivity.
  - exists 2, 5. split; [reflexivity|discriminate].
  - exists 2, 5. split; [reflexivity|discriminate].
  - reflexivity.
  - vm_compute. reflexivity.
  - vm_compute. reflexivity.
  - vm_compute. reflexivity.
Qed.

(** C4 (as stated, refuted).  The loop can reach a listed directory that is
    not empty: below [dst/a] the entry [a/keep.txt] is excluded by the
    matcher, so only [a] is listed, and [remove] throws. *)
Lemma listed_directory_not_empty :
  ~ (forall (e : Sync.env) (st st1 : Run.state) (l1 l2 : list Fs.path) (p : Fs.path),
       SyncFacts.src_closed e ->
       SyncFacts.sorted_removals e (Run.dst_tree st) = l1 ++ p :: l2 ->
       Run.for_each (Sync.remove_entry e) l1 st = (Run.Ret tt, st1) ->
       (exists t, Run.dst_tree st1 !! p = Some (Fs.Dir t)) ->
       Fs.empty_dir (Run.dst_tree st1) p).
Proof.
  intros H.
  specialize (H Examples.kept_child_env Examples.kept_child_state
                Examples.kept_child_state [] [] ["a"%string]).
  assert (Hsrc : SyncFacts.src_closed Examples.kept_child_env).
  { intros [|x p] s Hex; [reflexivity|]. vm_compute in Hex. discriminate. }
  specialize (H Hsrc eq_refl eq_refl (ex_intro _ 1 eq_refl)).
  specialize (H ["a"%string; "keep.txt"%string] (Fs.File 1 1) eq_refl).
  apply H. split; [discriminate|reflexivity].
Qed.

(** C4 (amended).  [mirror] walks the removal list only after sorting it by
    descending path string; the sorted list is a rearrangement of what
    [collectRemovals] gathered; every listed path below a listed path stands
    before it; and when the loop reaches a listed path below which the
    matcher excludes nothing, that path has no entries left, so that the
    loop runs to its end when this holds for every listed path.  For the
    destination-only subtree [a/b/file.txt] and no rules the lines written
    are the removals of [a/b/file.txt], [a/b], [a], in that order. *)
Theorem removal_order (e : Sync.env) (st : Run.state) :
  SyncFacts.src_closed e ->
  let L := SyncFacts.sorted_removals e (Run.dst_tree st) in
  Sync.mirror e st =
    Run.bind (Run.for_each (Sync.remove_entry e) L)
             (fun _ => Run.for_each (Sync.copy_entry e) (Sync.src_entries e)) st /\
  L ≡ₚ SyncFacts.removal_list e (Run.dst_tree st) /\
  SyncFacts.descending e L /\
  (forall p k, p ∈ L -> k ∈ L -> SyncFacts.below p k ->
     exists l1 l2 l3, L = l1 ++ k :: l2 ++ p :: l3) /\
  (forall l1 p l2 st1,
     L = l1 ++ p :: l2 ->
     Run.for_each (Sync.remove_entry e) l1 st = (Run.Ret tt, st1) ->
     SyncFacts.nothing_excluded_below e (Run.dst_tree st) p ->
     Fs.empty_dir (Run.dst_tree st1) p) /\
  ((forall p, p ∈ L -> SyncFacts.nothing_excluded_below e (Run.dst_tree st) p) ->
     exists st', Run.for_each (Sync.remove_entry e) L st = (Run.Ret tt, st')) /\
  Run.out (Sync.mirror Examples.subtree_env Examples.subtree_state).2 =
    [DEL_F "dst/a/b/file.txt"; DEL_D "dst/a/b"; DEL_D "dst/a"].
Proof.
  intros Hsrc L. subst L.
  refine (conj _ (conj _ (conj _ (conj _ (conj _ (conj _ _)))))).
  - apply SyncFacts.mirror_run.
  - apply SyncFacts.sorted_removals_perm.
  - apply SyncFacts.sorted_removals_descending.
  - intros p k. apply SyncFacts.listed_below_first.
  - intros l1 p l2 st1 HL Hrun Hex.
    exact (SyncFacts.reached_empty e st l1 p l2 st1 Hsrc HL Hrun Hex).
  - now apply SyncFacts.deletion_pass_returns.
  - vm_compute. reflexivity.
Qed.

Lemma removal_order_witness :
  Fs.empty_dir
    (delete ["a"%string; "b"%string]
       (delete ["a"%string; "b"%string; "file.txt"%string]
          (Run.dst_tree Examples.subtree_state)))
    ["a"%string].
Proof.
  assert (Hsrc : SyncFacts.src_closed Examples.subtree_env).
  { intros [|x p] s Hex; [reflexivity|]. vm_compute in Hex. discriminate. }
  destruct (removal_order Examples.subtree_env Examples.subtree_state Hsrc)
    as (_ & _ & _ & _ & Hempty & _ & _).
  eapply SyncFacts.empty_dir_same_keys;
    [|apply (Hempty [["a"; "b"; "file.txt"]; ["a"; "b"]]%string ["a"%string] []
               (Run.for_each (Sync.remove_entry Examples.subtree_env)
                  [["a"; "b"; "file.txt"]; ["a"; "b"]]%string
                  Examples.subtree_state).2)].
  - intros k [v Hk].
    apply lookup_delete_Some in Hk as [Hk1 Hk].
    apply lookup_delete_Some in Hk as [Hk2 Hk].
    unfold Examples.subtree_state in Hk. simpl in Hk.
    apply lookup_insert_Some in Hk as [[<- _]|[_ Hk]]; [vm_compute; eauto|].
    apply lookup_insert_Some in Hk as [[<- _]|[_ Hk]]; [congruence|].
    apply lookup_insert_Some in Hk as [[<- _]|[_ Hk]]; [congruence|].
    now rewrite lookup_empty in Hk.
  - vm_compute. reflexivity.
  - vm_compute. reflexivity.
  - intros k _ _. reflexivity.
Defined.

(** C5 (failing input).  The source holds [a.txt] and [b.txt], the
    destination is empty, and [a.txt] cannot be read.  [syncFile] catches the
    failure and writes its [[ERROR]] line, but the time stamp call that
    follows throws on the missing destination file: [mirror] ends there, and
    [b.txt] is never looked at. *)
Theorem failed_copy_of_new_file_aborts :
  let r := Sync.mirror Examples.unreadable_first_env Examples.empty_state in
  r.1 = Run.Throw "last_write_time: No such file or directory" /\
  Run.out r.2 = [ERROR "copy_file: Permission denied"] /\
  Run.dst_tree r.2 !! ["b.txt"%string] = None.
Proof. repeat split; vm_compute; reflexivity. Qed.

(** C6 (failing input).  The destination [a.txt] has the size of its source
    and an older time, and cannot be written.  The copy fails, yet the run
    stamps the destination with the source's time; a second run then finds
    size and time equal and does nothing. *)
Theorem failed_copy_is_stamped :
  let r := Sync.mirror Examples.unwritable_env Examples.unwritable_state in
  let r' := Sync.mirror Examples.unwritable_env (Examples.rerun r.2) in
  r.1 = Run.Ret tt /\
  Run.out r.2 = [ERROR "copy_file: Permission denied"] /\
  Run.dst_tree r.2 !! ["a.txt"%string] = Some (Fs.File 4 9) /\
  r'.1 = Run.Ret tt /\
  Run.out r'.2 = [].
Proof. repeat split; vm_compute; reflexivity. Qed.

(** C7 (failing input).  The destination [a.txt] is newer than its source
    and of another size.  The first run reports a copy, although
    [copy_file] replaces nothing, and stamps the file; the second run, with
    nothing changed in the source, finds the sizes still different and
    reports the copy once more. *)
Theorem second_run_copies_again :
  let r := Sync.mirror Examples.newer_destination_env Examples.newer_destination_state in
  let r' := Sync.mirror Examples.newer_destination_env (Examples.rerun r.2) in
  r.1 = Run.Ret tt /\
  Run.out r.2 = [COPY "src/a.txt" "dst/a.txt"] /\
  Run.dst_tree r.2 !! ["a.txt"%string] = Some (Fs.File 2 3) /\
  r'.1 = Run.Ret tt /\
  Run.out r'.2 = [COPY "src/a.txt" "dst/a.txt"].
Proof. repeat split; vm_compute; reflexivity. Qed.

(** C8.  A raw rule line is [body] followed by a run of blanks (space,
    carriage return, newline, tab), where [body] does not end in a blank.
    [addRule] keeps exactly the rule the specification assigns to [body]:
    none when [body] is empty or starts with [#], a negated rule over the rest
    when it starts with [!], a plain rule over all of [body] otherwise.  In
    the constructor that rule, if any, stands between the rules of the lines
    before and those of the lines after, so dropped lines leave the order of
    the kept rules alone. *)
Theorem addRule_strips_and_classifies
    (before after : list string) (body trail : string)
    (rules_ : list GitIgnore.rule) :
  StdStringFacts.all_in trail GitIgnore.trailing_blanks = true ->
  StdStringFacts.ends_outside body GitIgnore.trailing_blanks = true ->
  StdString.size (body ++ trail)%string <= StdString.npos ->
  GitIgnore.addRule (body ++ trail)%string rules_ =
    rules_ ++ option_list (GitIgnoreFacts.kept_rule body) /\
  GitIgnore.make (before ++ (body ++ trail)%string :: after) =
    GitIgnore.make before ++ option_list (GitIgnoreFacts.kept_rule body)
      ++ GitIgnore.make after.
Proof.
  intros Ht Hb Hs. split.
  - now apply GitIgnoreFacts.addRule_stripped.
  - rewrite GitIgnoreFacts.make_app, GitIgnoreFacts.make_cons.
    now rewrite (GitIgnoreFacts.addRule_stripped body trail [] Ht Hb Hs).
Qed.

Lemma addRule_strips_and_classifies_witness :
  GitIgnore.addRule "!keep.log  " [(false, "build/"%string)] =
    [(false, "build/"%string); (true, "keep.log"%string)] /\
  GitIgnore.make ["build/"%string; "# note"%string; "!keep.log  "%string; "tmp"%string] =
    [(false, "build/"%string); (true, "keep.log"%string); (false, "tmp"%string)].
Proof.
  exact (addRule_strips_and_classifies
           ["build/"%string; "# note"%string] ["tmp"%string]
           "!keep.log" "  " [(false, "build/"%string)]
           eq_refl eq_refl ltac:(vm_compute; discriminate)).
Defined.

(** C9.  With fewer than three words on the command line (the program name
    and fewer than two directories) [main] writes the usage line to the
    error stream, touches nothing and returns 1; when [mirror] returns,
    [main] writes the completion line to the output stream after everything
    [mirror] wrote and returns 0. *)
Theorem main_exit_status (mc : Sync.machine) (argv : list string) :
  ((length argv < 3)%nat ->
     Sync.main mc argv =
       (Sync.Exit 1,
        Run.State (Sync.dst_below mc (nth 2 argv EmptyString))
                  [USAGE (nth 0 argv EmptyString)]) /\
     stream_of (USAGE (nth 0 argv EmptyString)) = Cerr /\ 1 <> 0) /\
  (forall st,
     (3 <= length argv)%nat ->
     Sync.mirror (Sync.env_of mc argv) (Sync.initial mc argv) = (Run.Ret tt, st) ->
     Sync.main mc argv =
       (Sync.Exit 0, Run.State (Run.dst_tree st) (Run.out st ++ [FINISHED])) /\
     stream_of FINISHED = Cout).
Proof.
  split.
  - intros Hlen. unfold Sync.main.
    destruct (Z.ltb_spec (Z.of_nat (length argv)) 3) as [_|Hge]; [|lia].
    repeat split. discriminate.
  - intros st Hlen Hrun. unfold Sync.main.
    destruct (Z.ltb_spec (Z.of_nat (length argv)) 3) as [Hlt|_]; [lia|].
    unfold Run.bind. rewrite Hrun. now split.
Qed.

Lemma main_exit_status_witness :
  (Sync.main Examples.bare_machine ["sync"%string; "src"%string]).1 = Sync.Exit 1 /\
  (Sync.main Examples.bare_machine ["sync"%string; "src"%string; "dst"%string]).1
    = Sync.Exit 0.
Proof.
  split.
  - destruct (main_exit_status Examples.bare_machine ["sync"%string; "src"%string])
      as [Husage _].
    destruct Husage as (-> & _); [simpl; lia|reflexivity].
  - destruct (main_exit_status Examples.bare_machine
                ["sync"%string; "src"%string; "dst"%string]) as [_ Hdone].
    destruct (Hdone (Run.State ∅ [])) as (-> & _);
      [simpl; lia|vm_compute; reflexivity|reflexivity].
Defined.

(** C10.  The line [!], with or without blanks after it, is kept as the rule
    with the [neg] flag set and the empty pattern, and [match] finds the empty
    pattern in every path. *)
Theorem bang_line_kept (trail : string) (rules_ : list GitIgnore.rule) (p : string) :
  StdStringFacts.all_in trail GitIgnore.trailing_blanks = true ->
  StdString.size ("!" ++ trail)%string <= StdString.npos ->
  GitIgnore.addRule ("!" ++ trail)%string rules_ = rules_ ++ [(true, EmptyString)] /\
  GitIgnore.match_ p EmptyString = true.
Proof.
  intros Ht Hs. split.
  - now rewrite (GitIgnoreFacts.addRule_stripped "!" trail rules_ Ht eq_refl Hs).
  - apply GitIgnoreFacts.match_empty_pattern.
Qed.

Lemma bang_line_kept_witness :
  GitIgnore.addRule "! " [] = [(true, EmptyString)] /\
  GitIgnore.match_ "a/b.txt" EmptyString = true.
Proof.
  exact (bang_line_kept " " [] "a/b.txt" eq_refl ltac:(vm_compute; discriminate)).
Defined.

(** * Further properties of the matcher *)

(** X1.  [GitIgnore::match] is literal containment: it answers [true]
    exactly when the path is some text, then the pattern, then some more
    text.  No character of the pattern is special.  (The bound is the one
    [std::string] itself imposes.) *)
Theorem match_is_containment (path pattern : string) :
  StdString.size path <= StdString.npos ->
  GitIgnore.match_ path pattern = true <->
  exists a b, path = (a ++ pattern ++ b)%string.
Proof. apply GitIgnoreFacts.match_substring. Qed.

Lemma match_is_containment_witness :
  GitIgnore.match_ "a/tmp*/f.txt" "tmp*" = true /\
  GitIgnore.match_ "a/tmpx/f.txt" "tmp*" = false.
Proof.
  split.
  - apply (match_is_containment "a/tmp*/f.txt" "tmp*").
    + vm_compute. discriminate.
    + exists "a/"%string, "/f.txt"%string. reflexivity.
  - reflexivity.
Defined.

(** X2.  [GitIgnore::isIgnored] returns the stored flag of the last rule
    whose pattern occurs in the path with its backslashes turned into
    slashes, and [false] when no rule matches: earlier rules and the order
    among them do not matter. *)
Theorem last_matching_rule_decides (rules_ : list GitIgnore.rule) (path : string) :
  GitIgnore.isIgnored rules_ path =
  match GitIgnoreFacts.last_matching (StdString.replace path "092" "/") rules_ with
  | Some r => fst r
  | None => false
  end.
Proof.
  unfold GitIgnore.isIgnored. rewrite GitIgnoreFacts.fold_isIgnored_step.
  now destruct (GitIgnoreFacts.last_matching _ _).
Qed.

(** X3.  A rules file in which no line starts with [!] excludes nothing:
    whatever its lines are, [isIgnored] answers [false] on every path. *)
Theorem rules_without_bang_ignore_nothing (lines : list string) (path : string) :
  Forall (fun l => StdString.front l <> Some "!"%char) lines ->
  GitIgnore.isIgnored (GitIgnore.make lines) path = false.
Proof.
  intros Hl. apply GitIgnoreFacts.isIgnored_plain_rules.
  now apply GitIgnoreFacts.make_no_bang.
Qed.

Lemma rules_without_bang_ignore_nothing_witness :
  GitIgnore.isIgnored (GitIgnore.make ["build/"; "# notes"; "*.log"]%string)
    "build/out.log" = false.
Proof.
  apply (rules_without_bang_ignore_nothing ["build/"; "# notes"; "*.log"]%string).
  repeat constructor; discriminate.
Defined.

(** X4.  Only the path is normalized, not the pattern: a rule whose pattern
    holds a backslash matches no path, so it can be dropped from the list
    without changing any answer. *)
Theorem backslash_rule_is_inert
    (before after : list GitIgnore.rule) (r : GitIgnore.rule) (path : string) :
  StdString.is_in "092" (snd r) = true ->
  GitIgnore.match_ (StdString.replace path "092" "/") (snd r) = false /\
  GitIgnore.isIgnored (before ++ r :: after) path =
    GitIgnore.isIgnored (before ++ after) path.
Proof.
  intros Hb.
  pose proof (GitIgnoreFacts.backslash_pattern_no_match path (snd r) Hb) as Hm.
  split; [exact Hm|]. now apply GitIgnoreFacts.isIgnored_skip.
Qed.

Lemma backslash_rule_is_inert_witness :
  GitIgnore.isIgnored [(true, String "b" (String "092" (String "c" EmptyString)))]
    (String "b" (String "092" (String "c" EmptyString))) = false.
Proof.
  exact (proj2 (backslash_rule_is_inert []
                  [] (true, String "b" (String "092" (String "c" EmptyString)))
                  (String "b" (String "092" (String "c" EmptyString))) eq_refl)).
Defined.

(** X5.  The answer of [isIgnored] does not depend on which separator the
    path is written with: a path and the same path with every backslash
    turned into a slash get the same answer. *)
Theorem path_separator_is_irrelevant (rules_ : list GitIgnore.rule) (path : string) :
  GitIgnore.isIgnored rules_ (StdString.replace path "092" "/") =
  GitIgnore.isIgnored rules_ path.
Proof. apply GitIgnoreFacts.isIgnored_normalized. Qed.

(** X6.  A line that starts with [#], and a line made of blanks only, add
    no rule, whatever their length; removing such a line from the rules
    file leaves the constructed list as it is. *)
Theorem comment_and_blank_lines_add_nothing
    (before after : list string) (line : string) (rules_ : list GitIgnore.rule) :
  StdString.front line = Some "#"%char \/
    StdStringFacts.all_in line GitIgnore.trailing_blanks = true ->
  GitIgnore.addRule line rules_ = rules_ /\
  GitIgnore.make (before ++ line :: after) = GitIgnore.make (before ++ after).
Proof.
  intros Hline.
  assert (Hadd : forall rs, GitIgnore.addRule line rs = rs).
  { intros rs. destruct Hline as [Hc|Hb];
      [now apply GitIgnoreFacts.addRule_comment|now apply GitIgnoreFacts.addRule_blank]. }
  split; [apply Hadd|].
  rewrite !GitIgnoreFacts.make_app, GitIgnoreFacts.make_cons. now rewrite Hadd.
Qed.

Lemma comment_and_blank_lines_add_nothing_witness :
  GitIgnore.make ["!a"; "#!b  "; "!c"]%string = GitIgnore.make ["!a"; "!c"]%string.
Proof.
  destruct (comment_and_blank_lines_add_nothing ["!a"%string] ["!c"%string]
              "#!b  " [] (or_introl eq_refl)) as [_ H].
  exact H.
Defined.

(** X7.  Every rule the constructor stores is well formed: its pattern does
    not end in a blank, and the pattern of a rule without the [neg] flag is
    not empty and starts with neither [#] nor [!].  There are at most as many
    rules as lines. *)
Theorem stored_rules_are_well_formed (lines : list string) :
  Forall (fun l => StdString.size l <= StdString.npos) lines ->
  Forall GitIgnoreFacts.rule_ok (GitIgnore.make lines) /\
  (length (GitIgnore.make lines) <= length lines)%nat.
Proof.
  intros Hs. split; [now apply GitIgnoreFacts.make_ok|apply GitIgnoreFacts.make_length].
Qed.

Lemma stored_rules_are_well_formed_witness :
  Forall GitIgnoreFacts.rule_ok (GitIgnore.make ["build/  "; "!x"; "#"; " "]%string) /\
  (length (GitIgnore.make ["build/  "; "!x"; "#"; " "]%string) <= 4)%nat.
Proof.
  apply (stored_rules_are_well_formed ["build/  "; "!x"; "#"; " "]%string).
  repeat constructor; vm_compute; discriminate.
Defined.

(** * Further properties of the mirror *)

(** X8.  The list [mirror] deletes from is exactly the set of destination
    entries that are not excluded and have no counterpart in the source,
    each listed once: [collectRemovals] returns, changes nothing, and the
    sort only reorders what it found. *)
Theorem removal_list_is_exact (e : Sync.env) (st : Run.state) :
  exists found,
    Sync.collectRemovals e st = (Run.Ret found, st) /\
    NoDup (Sync.std_sort (Sync.path_gt e) found) /\
    forall k,
      k ∈ Sync.std_sort (Sync.path_gt e) found <->
      is_Some (Run.dst_tree st !! k) /\
      Sync.isIgnored e (Fs.path_string k) = false /\
      Sync.src_exists e k = false.
Proof.
  exists (SyncFacts.removal_list e (Run.dst_tree st)).
  split; [apply SyncFacts.collectRemovals_run|].
  split; [apply SyncFacts.sorted_removals_NoDup|].
  intros k. apply SyncFacts.elem_of_sorted_removals.
Qed.

(** X9.  When the deletion loop of [mirror] runs to its end, every listed
    path is gone; every other destination entry is still there, as it was
    unless it is the directory that held a listed path, whose modification
    time the removal changes; and the loop has written one line per listed
    path, in list order: [[DEL D]] for what was a directory and [[DEL F]]
    for what was a file. *)
Theorem deletion_loop_effect (e : Sync.env) (st st' : Run.state) :
  let listed := SyncFacts.sorted_removals e (Run.dst_tree st) in
  Run.for_each (Sync.remove_entry e) listed st = (Run.Ret tt, st') ->
  (forall k, k ∈ listed -> Run.dst_tree st' !! k = None) /\
  (forall k, k ∉ listed ->
     SyncFacts.same_but_dir_time (Run.dst_tree st !! k) (Run.dst_tree st' !! k)) /\
  (forall k, k ∉ listed -> (forall x, x ∈ listed -> k <> Fs.parent_path x) ->
     Run.dst_tree st' !! k = Run.dst_tree st !! k) /\
  Run.out st' =
    Run.out st ++ map (SyncFacts.del_line e (Run.dst_tree st)) listed.
Proof.
  intros listed Hrun.
  destruct (SyncFacts.for_each_remove_frame e listed st) as (Hsame & Hother & _).
  rewrite Hrun in Hsame, Hother.
  split; [exact (SyncFacts.for_each_remove_gone e listed st st' Hrun)|].
  split; [exact Hsame|]. split; [exact Hother|].
  exact (SyncFacts.for_each_remove_out e listed
           (SyncFacts.sorted_removals_NoDup e _) st st' Hrun).
Qed.

Lemma deletion_loop_effect_witness :
  Run.out (Examples.deletion_loop Examples.held_env Examples.held_state).2
    = [DEL_F "dst/d/old.txt"] /\
  Run.dst_tree (Examples.deletion_loop Examples.held_env Examples.held_state).2
    !! ["d"; "old.txt"]%string = None /\
  Run.dst_tree (Examples.deletion_loop Examples.held_env Examples.held_state).2
    !! ["d"; "kept.txt"]%string = Some (Fs.File 2 2) /\
  exists t,
    Run.dst_tree (Examples.deletion_loop Examples.held_env Examples.held_state).2
      !! ["d"%string] = Some (Fs.Dir t).
Proof.
  destruct (deletion_loop_effect Examples.held_env Examples.held_state
              (Examples.deletion_loop Examples.held_env Examples.held_state).2)
    as (Hgone & Hsame & Hother & Hout).
  - vm_compute. reflexivity.
  - split; [rewrite Hout; vm_compute; reflexivity|].
    split; [apply Hgone; vm_compute; now left|].
    assert (Hlisted : forall k, k ∈ SyncFacts.sorted_removals Examples.held_env
                             (Run.dst_tree Examples.held_state) ->
                           k = ["d"; "old.txt"]%string).
    { intros k Hk. vm_compute in Hk. now apply list_elem_of_singleton in Hk. }
    split.
    + rewrite Hother; [reflexivity| |].
      * intros Hk. apply Hlisted in Hk. discriminate.
      * intros x Hx. apply Hlisted in Hx. subst x. discriminate.
    + apply (SyncFacts.same_but_dir_time_dir
               (Run.dst_tree Examples.held_state !! ["d"%string])).
      * apply Hsame. intros Hk. apply Hlisted in Hk. discriminate.
      * exists 5. reflexivity.
Defined.

(** X10.  Without exclusions the deletion loop cannot fail on a directory
    that is not empty: when the matcher excludes nothing and the source
    listing holds the directories leading to its entries, the loop runs to
    its end, leaves no destination entry that the source lacks, and keeps
    every entry the source has (a directory possibly with a new
    modification time, when something was removed from it). *)
Theorem deletion_without_exclusions (e : Sync.env) (st : Run.state) :
  SyncFacts.src_closed e ->
  (forall p, Sync.isIgnored e p = false) ->
  exists st',
    Run.for_each (Sync.remove_entry e)
      (SyncFacts.sorted_removals e (Run.dst_tree st)) st = (Run.Ret tt, st') /\
    (forall k, is_Some (Run.dst_tree st' !! k) -> Sync.src_exists e k = true) /\
    (forall k, Sync.src_exists e k = true ->
               SyncFacts.same_but_dir_time (Run.dst_tree st !! k)
                 (Run.dst_tree st' !! k)).
Proof.
  intros Hclosed Hnone.
  destruct (SyncFacts.deletion_pass_returns e st Hclosed) as [st' Hrun].
  { intros p _ k _ _. apply Hnone. }
  exists st'. split; [exact Hrun|]. split.
  - intros k Hk.
    destruct (SyncFacts.for_each_remove_lookup e _ st st' k Hrun Hk) as [Hk0 Hnin].
    destruct (Sync.src_exists e k) eqn:Hs; [reflexivity|]. destruct Hnin.
    apply SyncFacts.elem_of_sorted_removals. auto.
  - intros k Hs. apply (SyncFacts.for_each_remove_keeps e _ _ _ _ k Hrun).
    intros Hin.
    apply SyncFacts.elem_of_sorted_removals in Hin as (_ & _ & Hno). congruence.
Qed.

Lemma deletion_without_exclusions_witness :
  exists st',
    Run.for_each (Sync.remove_entry Examples.scenario_env)
      (SyncFacts.sorted_removals Examples.scenario_env
         (Run.dst_tree Examples.scenario_state)) Examples.scenario_state
    = (Run.Ret tt, st') /\
    Run.dst_tree st' !! ["a.txt"%string] = Some (Fs.File 1 3).
Proof.
  destruct (deletion_without_exclusions Examples.scenario_env Examples.scenario_state)
    as (st' & Hrun & _ & Hkeep).
  - apply SyncFacts.src_wf_check_sound. vm_compute. reflexivity.
  - intros p. reflexivity.
  - exists st'. split; [exact Hrun|].
    apply (SyncFacts.same_but_dir_time_file
             (Run.dst_tree Examples.scenario_state !! ["a.txt"%string]));
      [apply Hkeep|]; reflexivity.
Defined.

(** X11.  [mirror] never deletes what the source has or the matcher
    excludes.  A destination entry that exists in the source, or whose path
    is excluded, is still there when [mirror] ends, however it ends, and it
    is still a file if it was a file and a directory if it was a directory.
    Unless it is the destination of a source file that is not excluded, a
    file is exactly as it was, and a directory is as it was but for its
    modification time, which changes when entries are created in it or
    removed from it. *)
Theorem mirror_keeps_what_source_has
    (e : Sync.env) (st : Run.state) (k : list string) (v : Fs.node) :
  Run.dst_tree st !! k = Some v ->
  Sync.src_exists e k = true \/ Sync.isIgnored e (Fs.path_string k) = true ->
  (exists v', Run.dst_tree (Sync.mirror e st).2 !! k = Some v' /\
              SyncFacts.same_kind v v') /\
  (~ SyncFacts.copied_file e (Sync.src_entries e) k ->
   SyncFacts.same_but_dir_time (Some v) (Run.dst_tree (Sync.mirror e st).2 !! k)).
Proof.
  intros Hk Hsrc. rewrite SyncFacts.mirror_run. unfold Run.bind.
  assert (Hnot : k ∉ SyncFacts.sorted_removals e (Run.dst_tree st)).
  { intros Hin. apply SyncFacts.elem_of_sorted_removals in Hin as (_ & Hi & Hs).
    destruct Hsrc; congruence. }
  destruct (Run.for_each (Sync.remove_entry e) _ st) as [[[]|w] s1] eqn:Hdel;
    pose proof (SyncFacts.for_each_remove_keeps _ _ _ _ _ _ Hdel Hnot) as Hsame;
    rewrite Hk in Hsame;
    destruct (SyncFacts.same_but_dir_time_kind _ _ Hsame) as (v1 & Hv1 & Hkind1).
  - destruct (SyncFacts.for_each_copy_effect e (Sync.src_entries e) s1 k v1 Hv1)
      as ((v2 & Hv2 & Hkind2) & Hch & _).
    split.
    + exists v2. split; [exact Hv2|]. eapply SyncFacts.same_kind_trans; eauto.
    + intros Hnc. destruct Hch as [Hch|Hch]; [|contradiction].
      rewrite Hv1 in Hsame. eapply SyncFacts.same_but_dir_time_trans; eauto.
  - simpl. split; [exists v1; auto|auto].
Qed.

Lemma mirror_keeps_what_source_has_witness :
  Run.dst_tree (Sync.mirror Examples.kept_child_env Examples.kept_child_state).2
    !! ["a"; "keep.txt"]%string = Some (Fs.File 1 1).
Proof.
  destruct (mirror_keeps_what_source_has Examples.kept_child_env
              Examples.kept_child_state ["a"; "keep.txt"]%string (Fs.File 1 1))
    as [_ Hsame].
  - reflexivity.
  - right. reflexivity.
  - assert (Hnc : ~ SyncFacts.copied_file Examples.kept_child_env
                      (Sync.src_entries Examples.kept_child_env)
                      ["a"; "keep.txt"]%string).
    { intros [Hi _]. vm_compute in Hi. discriminate. }
    exact (proj1 (SyncFacts.same_but_dir_time_file _ _ 1 1 (Hsame Hnc)) eq_refl).
Defined.

(** X12.  [mirror] creates entries only where the source has them: a path
    that is absent from the destination before the run and present after it
    is the path of a source entry that is not excluded, or of a directory
    leading to one. *)
Theorem mirror_creates_only_source_paths
    (e : Sync.env) (st : Run.state) (x : list string) :
  Run.dst_tree st !! x = None ->
  is_Some (Run.dst_tree (Sync.mirror e st).2 !! x) ->
  exists k n,
    (k, n) ∈ Sync.src_entries e /\
    Sync.isIgnored e (Fs.path_string k) = false /\ x `prefix_of` k.
Proof.
  intros Hx. rewrite SyncFacts.mirror_run. unfold Run.bind.
  destruct (Run.for_each (Sync.remove_entry e) _ st) as [[[]|w] s1] eqn:Hdel.
  - assert (H1 : Run.dst_tree s1 !! x = None).
    { destruct (Run.dst_tree s1 !! x) as [v|] eqn:H1; [|reflexivity].
      destruct (SyncFacts.for_each_remove_sub _ _ _ _ _ x Hdel) as [v0 Hv0];
        [rewrite H1; eauto|congruence]. }
    now apply SyncFacts.for_each_copy_new.
  - simpl. intros Hs.
    destruct (SyncFacts.for_each_remove_sub _ _ _ _ _ x Hdel Hs) as [v0 Hv0].
    congruence.
Qed.

Lemma mirror_creates_only_source_paths_witness :
  exists k n,
    (k, n) ∈ Sync.src_entries Examples.scenario_env /\
    Sync.isIgnored Examples.scenario_env (Fs.path_string k) = false /\
    ["sub"%string] `prefix_of` k.
Proof.
  apply (mirror_creates_only_source_paths Examples.scenario_env
           Examples.scenario_state ["sub"%string]).
  - reflexivity.
  - vm_compute. eexists. reflexivity.
Defined.

(** X13.  The log of one [mirror] run, however it ends, is what was written
    before it, then [[DEL D]] and [[DEL F]] lines only, then [[COPY]] and
    [[ERROR]] lines only: every deletion is reported before the first copy,
    and nothing already written is lost. *)
Theorem mirror_log_shape (e : Sync.env) (st : Run.state) :
  exists dels copies,
    Run.out (Sync.mirror e st).2 = Run.out st ++ dels ++ copies /\
    Forall SyncFacts.is_del_line dels /\
    Forall SyncFacts.is_copy_line copies.
Proof. apply SyncFacts.mirror_log. Qed.



(** X15.  On a destination that is in line with the source, [mirror] is
    the identity: it returns, changes no entry and writes no line. *)
Theorem mirror_fixes_settled_destination
    (e : Sync.env) (m : gmap (list string) Fs.node) (o : list line) :
  SyncFacts.nothing_to_remove e m ->
  SyncFacts.dirs_present e (Sync.src_entries e) m ->
  SyncFacts.files_in_sync e (Sync.src_entries e) m ->
  Sync.mirror e (Run.State m o) = (Run.Ret tt, Run.State m o).
Proof.
  intros Hrm Hdirs Hfiles. apply SyncFacts.mirror_settled.
  split; [exact Hrm|]. split; [exact Hdirs|exact Hfiles].
Qed.

Lemma mirror_fixes_settled_destination_witness :
  Sync.mirror Examples.newer_source_env
    (Run.State {[ ["a.txt"%string] := Fs.File 1 9 ]} [FINISHED])
  = (Run.Ret tt, Run.State {[ ["a.txt"%string] := Fs.File 1 9 ]} [FINISHED]).
Proof.
  apply (mirror_fixes_settled_destination Examples.newer_source_env).
  - intros k [v Hk]. apply lookup_singleton_Some in Hk as [<- _]. reflexivity.
  - intros k t Hk. apply list_elem_of_singleton in Hk. discriminate.
  - intros k s t Hk _. apply list_elem_of_singleton in Hk.
    injection Hk as -> -> ->. reflexivity.
Defined.









(** * Further properties of [main] *)

(** X20.  The completion line and the exit status go together: [main]
    writes [Sync finished.] exactly when it returns 0, and then as the last
    line, after action lines only; it returns 1 exactly when fewer than
    three words are on the command line. *)
Theorem finished_iff_exit_zero (mc : Sync.machine) (argv : list string) :
  let r := Sync.main mc argv in
  (r.1 = Sync.Exit 0 <-> FINISHED ∈ Run.out r.2) /\
  (r.1 = Sync.Exit 0 <->
     exists l, Run.out r.2 = l ++ [FINISHED] /\ Forall SyncFacts.is_action l) /\
  (r.1 = Sync.Exit 1 <-> (length argv < 3)%nat).
Proof.
  intros r. subst r. unfold Sync.main.
  destruct (Z.ltb_spec (Z.of_nat (length argv)) 3) as [Hlt|Hge]; simpl.
  - split; [|split].
    + split; [discriminate|]. intros Hin.
      apply list_elem_of_singleton in Hin. discriminate.
    + split; [discriminate|]. intros (l & Hl & _).
      destruct l as [|x [|y l]]; discriminate.
    + split; [lia|reflexivity].
  - unfold Run.bind.
    pose proof (SyncFacts.mirror_appends (Sync.env_of mc argv) (Sync.initial mc argv))
      as Happ.
    destruct (Sync.mirror (Sync.env_of mc argv) (Sync.initial mc argv))
      as [[[]|w] s1]; simpl in *.
    + split; [|split].
      * split; [intros _|reflexivity]. apply elem_of_app. right. now left.
      * split; [intros _|reflexivity]. exists (Run.out s1). split; [reflexivity|].
        destruct Happ as (l & -> & Hl). exact Hl.
      * split; [discriminate|lia].
    + assert (Hno : FINISHED ∉ Run.out s1).
      { apply (SyncFacts.action_not_finished _ _ Happ). apply not_elem_of_nil. }
      split; [|split].
      * split; [discriminate|contradiction].
      * split; [discriminate|]. intros (l & Hl & _). destruct Hno.
        rewrite Hl. apply elem_of_app. right. now left.
      * split; [discriminate|lia].
Qed.

(** X21.  The rules file is read only when the command line has exactly
    four words and the file exists.  With three words, with five or more,
    or with a missing file, the matcher holds no rule and excludes
    nothing. *)
Theorem rules_need_exactly_four_words (mc : Sync.machine) (argv : list string) :
  length argv <> 4%nat \/ Sync.file_lines mc (nth 3 argv EmptyString) = None ->
  Sync.g_ignore (Sync.env_of mc argv) = Some [] /\
  forall p, Sync.isIgnored (Sync.env_of mc argv) p = false.
Proof.
  intros Hno.
  assert (Hload : Sync.load_rules mc argv = []).
  { unfold Sync.load_rules.
    destruct (Z.eqb_spec (Z.of_nat (length argv)) 4) as [Heq|_]; [|reflexivity].
    destruct Hno as [Hlen|Hfile]; [lia|now rewrite Hfile]. }
  assert (Hg : Sync.g_ignore (Sync.env_of mc argv) = Some []).
  { unfold Sync.env_of. simpl. now rewrite Hload. }
  split; [exact Hg|]. intros p. unfold Sync.isIgnored. now rewrite Hg.
Qed.

Lemma rules_need_exactly_four_words_witness :
  Sync.g_ignore (Sync.env_of Examples.rules_machine
                   ["sync"; "src"; "dst"; "rules.txt"; "-v"]%string) = Some [] /\
  Sync.g_ignore (Sync.env_of Examples.rules_machine
                   ["sync"; "src"; "dst"; "rules.txt"]%string)
    = Some [(true, "keep"%string)].
Proof.
  split; [|reflexivity].
  apply (rules_need_exactly_four_words Examples.rules_machine
           ["sync"; "src"; "dst"; "rules.txt"; "-v"]%string).
  left. simpl. lia.
Defined.

(** * Further properties of [syncFile] *)

(** X22.  [syncFile] never lets an exception escape and writes exactly one
    line.  After a [[COPY]] line the destination tree is either unchanged
    (the destination file was not older than the source, and nothing was
    copied) or it is the tree with the destination written in full: a file
    of the source's size at the path, in a directory whose time changed when
    the file is new.  After an [[ERROR]] line the tree is either unchanged
    (nothing was opened) or it is the tree with the destination written in
    part (the copy broke off). *)
Theorem syncFile_always_returns
    (e : Sync.env) (rel : list string) (ssize smtime : Z) (st : Run.state) :
  let r := Sync.syncFile e rel ssize smtime st in
  r.1 = Run.Ret tt /\
  ((Run.out r.2 = Run.out st ++ [COPY (Fs.abs_string (Sync.src_root e) rel)
                                      (Fs.abs_string (Sync.dst_root e) rel)] /\
    (Run.dst_tree r.2 = Run.dst_tree st \/
     Run.dst_tree r.2 = Sync.opened e rel ssize (Run.dst_tree st))) \/
   (exists what, Run.out r.2 = Run.out st ++ [ERROR what] /\
      (Run.dst_tree r.2 = Run.dst_tree st \/
       exists written, Sync.io e rel = Sync.fails_after written /\
                       Run.dst_tree r.2 = Sync.opened e rel written (Run.dst_tree st)))).
Proof.
  destruct st as [m o].
  unfold Sync.syncFile, Sync.copy_file, Sync.move_bytes, Run.try_catch, Run.bind,
    Run.get_tree, Run.put_tree, Run.print, Run.ret, Run.throw.
  simpl.
  destruct (m !! rel) as [[ds dt|dt]|];
    [destruct (smtime <=? dt)| |];
    try (destruct (Sync.io e rel) as [| |written] eqn:Hio); simpl;
    (split; [reflexivity|]); eauto 8.
Qed.
